(** * polyfsck: a shallow embedding of tools/polyfs/polyfsck.c

    The checker is modelled on an LP64 little-endian host: [unsigned long]
    is 64 bits wide, [int] and [unsigned int] are 32 bits wide.  Machine
    integers are values in [Z] and every conversion or operation that can
    wrap in C is written with an explicit reduction.  Bytes are values in
    [Z] between 0 and 255; the image file is the list of its bytes.

    The program is fail-fast: [die] prints a message and exits with a status.
    The embedding is an error-and-state monad over the module-level
    variables of the C file.  Recursion over the directory tree is bounded
    by a fuel argument because a corrupt image can make the C recursion
    run forever. *)

From Stdlib Require Import ZArith List String Bool Lia.
Import ListNotations.
Local Open Scope Z_scope.

(** ** Machine integers *)

Definition to_ulong (z : Z) : Z := z mod 2 ^ 64.
Definition to_uint (z : Z) : Z := z mod 2 ^ 32.
(** Conversion to [int]: reduction modulo 2^32 into the signed range. *)
Definition to_int (z : Z) : Z := (z + 2 ^ 31) mod 2 ^ 32 - 2 ^ 31.

Definition ULONG_MAX : Z := 2 ^ 64 - 1.

(** ** Exit codes used by fsck-type programs *)

Definition FSCK_OK : Z := 0.
Definition FSCK_NONDESTRUCT : Z := 1.
Definition FSCK_REBOOT : Z := 2.
Definition FSCK_UNCORRECTED : Z := 4.
Definition FSCK_ERROR : Z := 8.
Definition FSCK_USAGE : Z := 16.
Definition FSCK_LIBRARY : Z := 128.

Definition PAD_SIZE : Z := 512.

Definition ROMBUFFER_BITS : Z := 13.
Definition ROMBUFFERSIZE : Z := Z.shiftl 1 ROMBUFFER_BITS.
Definition ROMBUFFERMASK : Z := ROMBUFFERSIZE - 1.

(** ** File-type bits of <sys/stat.h> *)

Definition S_IFMT : Z := 61440.   (* 0170000 *)
Definition S_IFSOCK : Z := 49152. (* 0140000 *)
Definition S_IFLNK : Z := 40960.  (* 0120000 *)
Definition S_IFREG : Z := 32768.  (* 0100000 *)
Definition S_IFBLK : Z := 24576.  (* 0060000 *)
Definition S_IFDIR : Z := 16384.  (* 0040000 *)
Definition S_IFCHR : Z := 8192.   (* 0020000 *)
Definition S_IFIFO : Z := 4096.   (* 0010000 *)
Definition S_ISUID : Z := 2048.   (* 0004000 *)
Definition S_ISGID : Z := 1024.   (* 0002000 *)

Definition S_ISDIR (m : Z) : bool := Z.land m S_IFMT =? S_IFDIR.
Definition S_ISREG (m : Z) : bool := Z.land m S_IFMT =? S_IFREG.
Definition S_ISLNK (m : Z) : bool := Z.land m S_IFMT =? S_IFLNK.
Definition S_ISCHR (m : Z) : bool := Z.land m S_IFMT =? S_IFCHR.
Definition S_ISBLK (m : Z) : bool := Z.land m S_IFMT =? S_IFBLK.
Definition S_ISFIFO (m : Z) : bool := Z.land m S_IFMT =? S_IFIFO.
Definition S_ISSOCK (m : Z) : bool := Z.land m S_IFMT =? S_IFSOCK.

(** ** Byte-list helpers *)

Definition bytes := list Z.

Definition take (n : Z) (l : bytes) : bytes := firstn (Z.to_nat n) l.
Definition drop (n : Z) (l : bytes) : bytes := skipn (Z.to_nat n) l.
Definition zeros (n : Z) : bytes := repeat 0 (Z.to_nat n).
Definition blen (l : bytes) : Z := Z.of_nat (List.length l).

(** [memcpy (dst + at, src, |src|)] on a buffer that is long enough; bytes
    of [dst] outside the written range keep their old value. *)
Definition blit (dst : bytes) (at_ : Z) (src : bytes) : bytes :=
  take at_ dst ++ src ++ drop (at_ + blen src) dst.

(** Little-endian 32-bit load from the first four bytes of [p]. *)
Definition byte_at (p : bytes) (i : nat) : Z := Z.land (nth i p 0) 255.
Definition le32 (p : bytes) : Z :=
  byte_at p 0 + Z.shiftl (byte_at p 1) 8 + Z.shiftl (byte_at p 2) 16
  + Z.shiftl (byte_at p 3) 24.

(** [strlen]: the bytes before the first NUL. *)
Fixpoint c_string (p : bytes) : bytes :=
  match p with
  | [] => []
  | b :: q => if b =? 0 then [] else b :: c_string q
  end.

(** ** zlib's crc32

    zlib is an external library; [crc32 crc buf] is its documented
    function, the reflected CRC-32 of IEEE 802.3 with polynomial
    0xEDB88320, pre- and post-conditioned with 0xFFFFFFFF. *)

Definition crc_bit (c : Z) : Z :=
  if Z.testbit c 0 then Z.lxor (Z.shiftr c 1) 3988292384 else Z.shiftr c 1.

Definition crc_byte (c b : Z) : Z :=
  let c := Z.lxor c b in
  crc_bit (crc_bit (crc_bit (crc_bit (crc_bit (crc_bit (crc_bit (crc_bit c))))))).

Definition crc32 (crc : Z) (buf : bytes) : Z :=
  Z.lxor (fold_left crc_byte buf (Z.lxor crc 4294967295)) 4294967295.

(** [crc32(0L, Z_NULL, 0)] *)
Definition crc32_init : Z := 0.


(** ** On-disk records

    [struct polyfs_inode], [struct polyfs_super] and POLYFS_BLOCK_SIZE are
    declared in polyfs/polyfs_fs.h, which is not among the sources at hand;
    the definitions of this part take them from the format description. *)

(** Modelled from the spec: POLYFS_BLOCK_SIZE of polyfs_fs.h, the block
    size of the format. *)
Definition POLYFS_BLOCK_SIZE : Z := 4096.

(** Modelled from the spec: [struct polyfs_inode] of polyfs_fs.h, the
    fields of the packed inode record, here in host order. *)
Record polyfs_inode := mk_inode {
  i_mode : Z; i_uid : Z; i_size : Z; i_gid : Z; i_namelen : Z; i_offset : Z }.

(** Modelled from the spec: [struct polyfs_super] of polyfs_fs.h, the
    fields of the superblock table in their order; the root inode is kept as
    the 12 bytes that are stored. *)
Record polyfs_super := mk_super {
  s_magic : Z; s_size : Z; s_flags : Z; s_future : Z;
  s_signature : bytes;
  fsid_crc : Z; fsid_edition : Z; fsid_blocks : Z; fsid_files : Z;
  s_name : bytes;
  s_root : bytes }.

(** Modelled from the spec: [sizeof(struct polyfs_inode)], a packed record
    of 16 + 16 + 24 + 8 + 6 + 26 bits. *)
Definition sizeof_inode : Z := 12.

(** Modelled from the spec: [sizeof(struct polyfs_super)]; the fields of
    the superblock table add up to 64 bytes, the embedded root inode to 12
    more. *)
Definition sizeof_super : Z := 76.

(** Modelled from the spec: [offsetof(struct polyfs_super, fsid.crc)]; four
    32-bit scalars and the 16-byte signature come first. *)
Definition offsetof_fsid_crc : Z := 32.

(** [polyfs_iget]: a host-order copy of the inode record stored at [p].
    Modelled from the spec: the bit layout of the record, which the source
    takes from the struct declaration and the POLYFS_GET_NAMELEN and
    POLYFS_GET_OFFSET macros of polyfs_fs.h: mode and uid in the first
    little-endian word, size (24 bits) and gid in the second, namelen (6
    bits) and offset (26 bits) in the third. *)
Definition polyfs_iget (p : bytes) : polyfs_inode :=
  let w0 := le32 p in
  let w1 := le32 (drop 4 p) in
  let w2 := le32 (drop 8 p) in
  {| i_mode := Z.land w0 65535;
     i_uid := Z.shiftr w0 16;
     i_size := Z.land w1 16777215;
     i_gid := Z.shiftr w1 24;
     i_namelen := Z.land w2 63;
     i_offset := Z.shiftr w2 6 |}.

(** The superblock as [read(fd, &super, sizeof(super))] leaves it, with the
    scalar fields in host order.
    Modelled from the spec: the offsets of the fields, from the struct
    declaration of polyfs_fs.h. *)
Definition read_super (p : bytes) : polyfs_super :=
  {| s_magic := le32 p;
     s_size := le32 (drop 4 p);
     s_flags := le32 (drop 8 p);
     s_future := le32 (drop 12 p);
     s_signature := take 16 (drop 16 p);
     fsid_crc := le32 (drop 32 p);
     fsid_edition := le32 (drop 36 p);
     fsid_blocks := le32 (drop 40 p);
     fsid_files := le32 (drop 44 p);
     s_name := take 16 (drop 48 p);
     s_root := take sizeof_inode (drop 64 p) |}.

(** ** Program state

    The module-level variables of polyfsck.c that change during a run, and
    the record of the system calls made on the host while extracting. *)

Inductive syscall :=
| sys_mkdir (path : bytes) (mode : Z)
| sys_open (path : bytes) (mode : Z)
| sys_write (path : bytes) (data : bytes)
| sys_close (path : bytes)
| sys_symlink (target path : bytes)
| sys_mknod (path : bytes) (mode dev : Z)
| sys_lchown (path : bytes) (uid gid : Z)
| sys_chmod (path : bytes) (mode : Z)
| sys_utime (path : bytes).

Record state := mk_state {
  start_dir : Z;          (* start of first non-root inode *)
  end_dir : Z;            (* end of the directory structure *)
  start_data : Z;         (* start of the data *)
  end_data : Z;           (* end of the data *)
  read_buffer : bytes;    (* ROMBUFFERSIZE * 2 bytes *)
  read_buffer_block : Z;
  outbuffer : bytes;      (* POLYFS_BLOCK_SIZE * 2 bytes *)
  host : list syscall }.

Definition initial_state : state :=
  {| start_dir := ULONG_MAX; end_dir := 0;
     start_data := ULONG_MAX; end_data := 0;
     read_buffer := zeros (ROMBUFFERSIZE * 2);
     read_buffer_block := ULONG_MAX;
     outbuffer := zeros (POLYFS_BLOCK_SIZE * 2);
     host := [] |}.

Definition set_start_dir (v : Z) (st : state) : state :=
  mk_state v (end_dir st) (start_data st) (end_data st)
           (read_buffer st) (read_buffer_block st) (outbuffer st) (host st).
Definition set_end_dir (v : Z) (st : state) : state :=
  mk_state (start_dir st) v (start_data st) (end_data st)
           (read_buffer st) (read_buffer_block st) (outbuffer st) (host st).
Definition set_start_data (v : Z) (st : state) : state :=
  mk_state (start_dir st) (end_dir st) v (end_data st)
           (read_buffer st) (read_buffer_block st) (outbuffer st) (host st).
Definition set_end_data (v : Z) (st : state) : state :=
  mk_state (start_dir st) (end_dir st) (start_data st) v
           (read_buffer st) (read_buffer_block st) (outbuffer st) (host st).
Definition set_read_buffer (blk : Z) (b : bytes) (st : state) : state :=
  mk_state (start_dir st) (end_dir st) (start_data st) (end_data st)
           b blk (outbuffer st) (host st).
Definition set_outbuffer (b : bytes) (st : state) : state :=
  mk_state (start_dir st) (end_dir st) (start_data st) (end_data st)
           (read_buffer st) (read_buffer_block st) b (host st).
Definition log_syscall (c : syscall) (st : state) : state :=
  mk_state (start_dir st) (end_dir st) (start_data st) (end_data st)
           (read_buffer st) (read_buffer_block st) (outbuffer st)
           (host st ++ [c]).

(** The four layout counters of a state. *)
Definition counters (st : state) : Z * Z * Z * Z :=
  (start_dir st, end_dir st, start_data st, end_data st).

(** ** The monad of the checker

    A computation either returns a value and the new state, or has called
    [die] (the process exited with a status after printing a message), or
    has used up its fuel. *)

Inductive result (A : Type) : Type :=
| Ok (a : A) (st : state)
| Die (status : Z) (msg : string)
| Timeout.
Arguments Ok {A} a st.
Arguments Die {A} status msg.
Arguments Timeout {A}.

Definition M (A : Type) : Type := state -> result A.

Definition ret {A} (a : A) : M A := fun st => Ok a st.
Definition bind {A B} (m : M A) (k : A -> M B) : M B :=
  fun st => match m st with
            | Ok a st' => k a st'
            | Die status msg => Die status msg
            | Timeout => Timeout
            end.
(** [die(status, syserr, fmt, ...)]: the message is kept as its format. *)
Definition die {A} (status : Z) (fmt : string) : M A :=
  fun _ => Die status fmt.
Definition timeout {A} : M A := fun _ => Timeout.
Definition get {A} (f : state -> A) : M A := fun st => Ok (f st) st.
Definition modify (f : state -> state) : M unit := fun st => Ok tt (f st).
Definition when (b : bool) (m : M unit) : M unit := if b then m else ret tt.

Declare Scope checker_scope.
Delimit Scope checker_scope with checker.
Notation "x <- m ;; k" := (bind m (fun x => k))
  (at level 61, m at next level, right associativity) : checker_scope.
Notation "m ;; k" := (bind m (fun _ => k))
  (at level 61, right associativity) : checker_scope.
Local Open Scope checker_scope.

(** [refines r r']: [r'] is the result [r] or, when [r] ran out of fuel,
    any result. *)
Definition refines {A} (r r' : result A) : Prop := r = Timeout \/ r = r'.

(** [flags & bit] as a C truth value. *)
Definition has_flag (flags bit : Z) : bool := negb (Z.land flags bit =? 0).

(** Return codes of the decompression libraries. *)
Definition LZO_E_OK : Z := 0.
Definition Z_STREAM_END : Z := 1.

(** [buf[i] = v] inside the array. *)
Definition store (buf : bytes) (i v : Z) : bytes :=
  if (0 <=? i) && (i <? blen buf) then blit buf i [v] else buf.

(** Constants of polyfs/polyfs_fs.h whose values the format description
    leaves open. *)
Class Header := {
  POLYFS_MAGIC : Z;
  POLYFS_FLAG_FSID_VERSION_1 : Z;
  POLYFS_FLAG_SHIFTED_ROOT_OFFSET : Z;
  POLYFS_FLAG_ZLIB_COMPRESSION : Z;
  POLYFS_FLAG_LZO_COMPRESSION : Z;
  POLYFS_SUPPORTED_FLAGS : Z;
  POLYFS_BLOCK_MAX_SIZE_WITH_OVERHEAD : Z }.

(** The decompression libraries.  [lzo1x_decompress_safe src len cap] and
    [inflate src avail_in avail_out] give the return code and the bytes
    written to the output; the second LZO call of [uncompress_block] works
    inside one buffer, with the input at [offset] and the output at its
    start. *)
Class Libraries := {
  lzo1x_decompress_safe : bytes -> Z -> Z -> Z * bytes;
  lzo1x_decompress_overlap : bytes -> Z -> Z -> Z -> Z * bytes;
  inflate : bytes -> Z -> Z -> Z * bytes }.

(** The run: the bytes of the image file (a regular file that stat, open,
    lseek and read serve without error), the command line, the effective
    user, whether mmap succeeds, and which system calls fail while
    extracting.  Memory allocation succeeds.  Output of [-v] is left out. *)
Class Run := {
  image : bytes;
  opt_extract : bool;
  extract_dir : bytes;
  euid : Z;
  mmap_ok : bool;
  sys_fails : list syscall -> syscall -> bool }.

Section Polyfsck.

Context {hdr : Header} {libs : Libraries} {run : Run}.

(** A system call whose failure is fatal. *)
Definition sys (c : syscall) (fmt : string) : M unit :=
  fun st => if sys_fails (host st) c then Die FSCK_ERROR fmt
            else Ok tt (log_syscall c st).

(** ** test_super *)

(** The search for the superblock at offset 0, then at [PAD_SIZE]: the value
    of [start] and the contents of [super] when the tests begin. *)
Definition find_superblock : Z * polyfs_super :=
  let super0 := read_super (take sizeof_super image) in
  if s_magic super0 =? POLYFS_MAGIC then (0, super0)
  else if blen image >=? PAD_SIZE + sizeof_super then
    let super1 := read_super (take sizeof_super (drop PAD_SIZE image)) in
    if s_magic super1 =? POLYFS_MAGIC then (PAD_SIZE, super1)
    else (0, super1)
  else (0, super0).

Definition test_super : M (Z * Z * polyfs_super) :=
  let length := blen image in
  if length <? sizeof_super then
    die FSCK_UNCORRECTED "filesystem smaller than a polyfs superblock!"
  else
    let '(start, super) := find_superblock in
    (* superblock tests *)
    if negb (s_magic super =? POLYFS_MAGIC) then
      die FSCK_UNCORRECTED "superblock magic not found"
    else if negb (Z.land (s_flags super) (Z.lnot POLYFS_SUPPORTED_FLAGS) =? 0) then
      die FSCK_ERROR "unsupported filesystem features"
    else if s_size super <? POLYFS_BLOCK_SIZE then
      die FSCK_UNCORRECTED "superblock size (%d) too small"
    else if has_flag (s_flags super) POLYFS_FLAG_FSID_VERSION_1 then
      if fsid_files super =? 0 then
        die FSCK_UNCORRECTED "zero file count"
      else if length <? s_size super then
        die FSCK_UNCORRECTED "file length too short, %lu is smaller than %lu"
      else ret (start, length, super)
    else die FSCK_UNCORRECTED "invalid filesystem version".

Section Checked.

(** The superblock found by [test_super]. *)
Variable super : polyfs_super.

(** ** test_crc *)

(** The read loop used when mmap fails: [pos] is the file position, [buf]
    the 4096-byte buffer, [length] the bytes read so far. *)
Fixpoint test_crc_read (n : nat) (start pos : Z) (buf : bytes)
    (length crc : Z) : Z :=
  match n with
  | O => crc
  | S n' =>
    let data := take 4096 (drop pos image) in
    let retval := blen data in
    let buf := blit buf 0 data in
    if retval =? 0 then crc
    else
      let buf := if length =? 0
                 then blit buf offsetof_fsid_crc [0; 0; 0; 0] else buf in
      let length := length + retval in
      let limit := to_uint (s_size super - start) in
      if length >? limit then
        crc32 crc (take (retval - (length - limit)) buf)
      else
        test_crc_read n' start (pos + retval) buf length
                      (crc32 crc (take retval buf))
  end.

Definition test_crc (start : Z) : M unit :=
  if negb (has_flag (s_flags super) POLYFS_FLAG_FSID_VERSION_1) then ret tt
  else
    let crc :=
      if mmap_ok then
        let buf := take (s_size super) image in
        let buf := blit buf (start + offsetof_fsid_crc) [0; 0; 0; 0] in
        crc32 crc32_init (take (to_uint (s_size super - start)) (drop start buf))
      else
        test_crc_read (S (List.length image)) start start (zeros 4096) 0
                      crc32_init in
    if negb (crc =? fsid_crc super) then die FSCK_UNCORRECTED "crc error"
    else ret tt.

(** ** Create a fake "blocked" access *)

(** The window after a request for [offset]: it is read again when the
    8 KiB block of [offset] is not the cached one; a short read leaves the
    tail of the buffer as it was. *)
Definition romfs_load (offset : Z) (st : state) : state :=
  let block := to_uint (Z.shiftr offset ROMBUFFER_BITS) in
  if block =? read_buffer_block st then st
  else
    let pos := to_uint (Z.shiftl block ROMBUFFER_BITS) in
    let data := take (ROMBUFFERSIZE * 2) (drop pos image) in
    set_read_buffer block (blit (read_buffer st) 0 data) st.

(** The bytes that the returned pointer gives access to. *)
Definition romfs_read (offset : Z) : M bytes :=
  fun st =>
    let st' := romfs_load offset st in
    Ok (drop (Z.land offset ROMBUFFERMASK) (read_buffer st')) st'.

(** [POLYFS_32( *(uint32_t * ) romfs_read(offset))] *)
Definition read_u32 (offset : Z) (st : state) : Z :=
  le32 (drop (Z.land offset ROMBUFFERMASK)
             (read_buffer (romfs_load offset st))).

(** The inode that [iget(ino)] returns. *)
Definition peek_inode (ino : Z) (st : state) : polyfs_inode :=
  polyfs_iget (drop (Z.land (to_uint ino) ROMBUFFERMASK)
                    (read_buffer (romfs_load (to_uint ino) st))).

Definition iget (ino : Z) : M polyfs_inode :=
  p <- romfs_read (to_uint ino) ;; ret (polyfs_iget p).

(** ** uncompress_block *)

Definition uncompress_block (src : bytes) (len : Z) : M Z :=
  if has_flag (s_flags super) POLYFS_FLAG_LZO_COMPRESSION then
    when (len >? POLYFS_BLOCK_SIZE + POLYFS_BLOCK_SIZE / 16 + 64 + 3)
         (die FSCK_UNCORRECTED "data block too large") ;;
    let '(err, out) :=
      lzo1x_decompress_safe src (to_ulong len) (POLYFS_BLOCK_SIZE * 2) in
    let outlen := blen out in
    modify (fun st => set_outbuffer (blit (outbuffer st) 0 out) st) ;;
    when (negb (err =? LZO_E_OK))
         (die FSCK_UNCORRECTED "decompression error %d") ;;
    (* take a CRC of the decompressed data *)
    ob <- get outbuffer ;;
    let crc := crc32 crc32_init (take outlen ob) in
    (* now try to do an overlapping decompression *)
    let overlap := zeros POLYFS_BLOCK_MAX_SIZE_WITH_OVERHEAD in
    let offset := to_uint (POLYFS_BLOCK_MAX_SIZE_WITH_OVERHEAD - len) in
    let overlap := blit overlap offset (take len src) in
    let new_len := if len <? POLYFS_BLOCK_SIZE then outlen
                   else POLYFS_BLOCK_SIZE in
    let '(err, out2) :=
      lzo1x_decompress_overlap overlap offset (to_ulong len) new_len in
    when (negb (err =? LZO_E_OK))
         (die FSCK_UNCORRECTED "LZO overlap decompression failed: %d (1)") ;;
    let new_len := blen out2 in
    let crc2 := crc32 crc32_init out2 in
    when (negb (new_len =? outlen) || negb (crc =? crc2))
         (die FSCK_UNCORRECTED "LZO overlap decompression failed: %d (2)") ;;
    ret (to_int outlen)
  else if has_flag (s_flags super) POLYFS_FLAG_ZLIB_COMPRESSION then
    when (len >? POLYFS_BLOCK_SIZE * 2)
         (die FSCK_UNCORRECTED "data block too large") ;;
    let '(err, out) := inflate src (to_uint len) (POLYFS_BLOCK_SIZE * 2) in
    modify (fun st => set_outbuffer (blit (outbuffer st) 0 out) st) ;;
    when (negb (err =? Z_STREAM_END))
         (die FSCK_UNCORRECTED "decompression error %p(%d): %s") ;;
    ret (to_int (blen out))
  else
    when (len >? POLYFS_BLOCK_SIZE)
         (die FSCK_UNCORRECTED "data block too large") ;;
    ret len.

(** ** do_uncompress

    [do_uncompress_loop] is the do-while loop; [n] bounds the number of
    blocks expanded. *)

Fixpoint do_uncompress_loop (n : nat) (path : bytes)
    (offset size curr : Z) : M unit :=
  match n with
  | O => timeout
  | S n' =>
    p <- romfs_read offset ;;
    let next := le32 p in
    ed <- get end_data ;;
    when (next >? ed) (modify (set_end_data next)) ;;
    let offset := to_ulong (offset + 4) in
    out <- (if curr =? next then
              let out := if size <? POLYFS_BLOCK_SIZE then size
                         else POLYFS_BLOCK_SIZE in
              modify (fun st =>
                        set_outbuffer (blit (outbuffer st) 0 (zeros out)) st) ;;
              ret out
            else
              src <- romfs_read curr ;;
              r <- uncompress_block src (to_int (to_ulong (next - curr))) ;;
              ret (to_ulong r)) ;;
    (if size >=? POLYFS_BLOCK_SIZE then
       when (negb (out =? POLYFS_BLOCK_SIZE))
            (die FSCK_UNCORRECTED "non-block (%ld) bytes")
     else
       when (negb (out =? size))
            (die FSCK_UNCORRECTED "non-size (%ld vs %ld) bytes")) ;;
    let size := to_ulong (size - out) in
    when opt_extract
         (ob <- get outbuffer ;;
          sys (sys_write path (take out ob)) "write failed: %s") ;;
    let curr := next in
    if size =? 0 then ret tt
    else do_uncompress_loop n' path offset size curr
  end.

Definition do_uncompress (n : nat) (path : bytes) (offset size : Z) : M unit :=
  let curr :=
    to_ulong (offset + 4 * (to_ulong (size + POLYFS_BLOCK_SIZE - 1)
                            / POLYFS_BLOCK_SIZE)) in
  do_uncompress_loop n path offset size curr.

(** The first half of one turn of that loop, up to the point where the
    length [out] of the expanded block is known; it gives [next] and
    [out]. *)
Definition do_uncompress_block (offset size curr : Z) : M (Z * Z) :=
  p <- romfs_read offset ;;
  let next := le32 p in
  ed <- get end_data ;;
  when (next >? ed) (modify (set_end_data next)) ;;
  out <- (if curr =? next then
            let out := if size <? POLYFS_BLOCK_SIZE then size
                       else POLYFS_BLOCK_SIZE in
            modify (fun st =>
                      set_outbuffer (blit (outbuffer st) 0 (zeros out)) st) ;;
            ret out
          else
            src <- romfs_read curr ;;
            r <- uncompress_block src (to_int (to_ulong (next - curr))) ;;
            ret (to_ulong r)) ;;
  ret (next, out).

(** ** change_file_status *)

Definition change_file_status (path : bytes) (i : polyfs_inode) : M unit :=
  when (euid =? 0)
       (sys (sys_lchown path (i_uid i) (i_gid i)) "lchown failed: %s" ;;
        if S_ISLNK (i_mode i) then ret tt
        else when (has_flag (Z.lor S_ISUID S_ISGID) (i_mode i))
                  (sys (sys_chmod path (i_mode i)) "chown failed: %s")) ;;
  if S_ISLNK (i_mode i) then ret tt
  else sys (sys_utime path) "utime failed: %s".

(** ** do_directory

    [expand_fs] is passed in: the directory walker and [expand_fs] call each
    other.  [do_directory_loop] is the while loop over the children, with
    [newpath] the path of the directory followed by its separator. *)

Section Directory.

Variable expand_fs : bytes -> polyfs_inode -> M unit.

Fixpoint do_directory_loop (n : nat) (newpath : bytes)
    (count offset : Z) : M unit :=
  if count >? 0 then
    match n with
    | O => timeout
    | S n' =>
      child <- iget offset ;;
      let newlen := to_int (Z.shiftl (i_namelen child) 2) in
      let size := to_int (sizeof_inode + newlen) in
      let count := to_int (count - size) in
      let offset := to_ulong (offset + sizeof_inode) in
      p <- romfs_read offset ;;
      let childpath := newpath ++ c_string (take newlen p) in
      when (newlen =? 0)
           (die FSCK_UNCORRECTED "filename length is zero") ;;
      when (to_ulong (blen newpath + newlen - blen childpath) >? 3)
           (die FSCK_UNCORRECTED "bad filename length") ;;
      expand_fs childpath child ;;
      let offset := to_ulong (offset + newlen) in
      sd <- get start_dir ;;
      when (offset <=? sd) (die FSCK_UNCORRECTED "bad inode offset") ;;
      ed <- get end_dir ;;
      when (offset >? ed) (modify (set_end_dir offset)) ;;
      do_directory_loop n' newpath count offset
    end
  else ret tt.

Definition do_directory (n : nat) (path : bytes) (i : polyfs_inode) : M unit :=
  let pathlen := blen path in
  let count := to_int (i_size i) in
  let offset := to_ulong (Z.shiftl (i_offset i) 2) in
  when ((offset =? 0) && negb (count =? 0))
       (die FSCK_UNCORRECTED
            "directory inode has zero offset and non-zero size: %s") ;;
  sd <- get start_dir ;;
  when (negb (offset =? 0) && (offset <? sd)) (modify (set_start_dir offset)) ;;
  let newpath := if pathlen >? 1 then path ++ [47] else path in
  when opt_extract
       (sys (sys_mkdir path (i_mode i)) "mkdir failed: %s" ;;
        change_file_status path i) ;;
  do_directory_loop n newpath count offset.

End Directory.

(** ** do_file *)

Definition do_file (n : nat) (path : bytes) (i : polyfs_inode) : M unit :=
  let offset := to_ulong (Z.shiftl (i_offset i) 2) in
  when ((offset =? 0) && negb (i_size i =? 0))
       (die FSCK_UNCORRECTED "file inode has zero offset and non-zero size") ;;
  when ((i_size i =? 0) && negb (offset =? 0))
       (die FSCK_UNCORRECTED "file inode has zero size and non-zero offset") ;;
  sd <- get start_data ;;
  when (negb (offset =? 0) && (offset <? sd))
       (modify (set_start_data offset)) ;;
  when opt_extract (sys (sys_open path (i_mode i)) "open failed: %s") ;;
  when (negb (i_size i =? 0)) (do_uncompress n path offset (i_size i)) ;;
  when opt_extract
       (modify (log_syscall (sys_close path)) ;;
        change_file_status path i).

(** ** do_symlink *)

Definition do_symlink (path : bytes) (i : polyfs_inode) : M unit :=
  let offset := to_ulong (Z.shiftl (i_offset i) 2) in
  let curr := to_ulong (offset + 4) in
  p <- romfs_read offset ;;
  let next := le32 p in
  when (offset =? 0)
       (die FSCK_UNCORRECTED "symbolic link has zero offset") ;;
  when (i_size i =? 0)
       (die FSCK_UNCORRECTED "symbolic link has zero size") ;;
  sd <- get start_data ;;
  when (offset <? sd) (modify (set_start_data offset)) ;;
  ed <- get end_data ;;
  when (next >? ed) (modify (set_end_data next)) ;;
  src <- romfs_read curr ;;
  r <- uncompress_block src (to_int (to_ulong (next - curr))) ;;
  let size := to_ulong r in
  when (negb (size =? i_size i))
       (die FSCK_UNCORRECTED "size error in symlink: %s") ;;
  modify (fun st => set_outbuffer (store (outbuffer st) size 0) st) ;;
  when opt_extract
       (ob <- get outbuffer ;;
        sys (sys_symlink (c_string ob) path) "symlink failed: %s" ;;
        change_file_status path i).

(** [do_symlink] up to the return of [uncompress_block]: the decompressed
    length of the link's block. *)
Definition do_symlink_block (i : polyfs_inode) : M Z :=
  let offset := to_ulong (Z.shiftl (i_offset i) 2) in
  let curr := to_ulong (offset + 4) in
  p <- romfs_read offset ;;
  let next := le32 p in
  when (offset =? 0)
       (die FSCK_UNCORRECTED "symbolic link has zero offset") ;;
  when (i_size i =? 0)
       (die FSCK_UNCORRECTED "symbolic link has zero size") ;;
  sd <- get start_data ;;
  when (offset <? sd) (modify (set_start_data offset)) ;;
  ed <- get end_data ;;
  when (next >? ed) (modify (set_end_data next)) ;;
  src <- romfs_read curr ;;
  uncompress_block src (to_int (to_ulong (next - curr))).

(** ** do_special_inode *)

Definition do_special_inode (path : bytes) (i : polyfs_inode) : M unit :=
  when (negb (i_offset i =? 0))
       (die FSCK_UNCORRECTED "special file has non-zero offset: %s") ;;
  devtype <-
    (if S_ISCHR (i_mode i) then ret (i_size i)
     else if S_ISBLK (i_mode i) then ret (i_size i)
     else if S_ISFIFO (i_mode i) then
       when (negb (i_size i =? 0))
            (die FSCK_UNCORRECTED "fifo has non-zero size: %s") ;;
       ret 0
     else if S_ISSOCK (i_mode i) then
       when (negb (i_size i =? 0))
            (die FSCK_UNCORRECTED "socket has non-zero size: %s") ;;
       ret 0
     else die FSCK_UNCORRECTED "bogus mode: %s (%o)") ;;
  when opt_extract
       (sys (sys_mknod path (i_mode i) devtype) "mknod failed: %s" ;;
        change_file_status path i).

(** ** expand_fs

    One unit of [fuel] is spent per call; what is left bounds the loops of
    the handler that is called. *)

Fixpoint expand_fs (fuel : nat) (path : bytes) (inode : polyfs_inode)
    : M unit :=
  match fuel with
  | O => timeout
  | S fuel' =>
    if S_ISDIR (i_mode inode) then
      do_directory (expand_fs fuel') fuel' path inode
    else if S_ISREG (i_mode inode) then do_file fuel' path inode
    else if S_ISLNK (i_mode inode) then do_symlink path inode
    else do_special_inode path inode
  end.

(** ** test_fs

    [test_fs_layout] is the block of tests that follows the walk. *)

Definition test_fs_layout (start : Z) : M unit :=
  sdata <- get start_data ;;
  edir <- get end_dir ;;
  edata <- get end_data ;;
  when (negb (sdata =? ULONG_MAX))
       (when (sdata <? to_ulong (sizeof_super + start))
             (die FSCK_UNCORRECTED
                  "directory data start (%ld) < sizeof(struct polyfs_super) + start (%ld)") ;;
        when (negb (edir =? sdata))
             (die FSCK_UNCORRECTED
                  "directory data end (%ld) != file data start (%ld)")) ;;
  when (has_flag (s_flags super) POLYFS_FLAG_FSID_VERSION_1)
       (when (edata >? s_size super)
             (die FSCK_UNCORRECTED "invalid file data offset")).

Definition test_fs (fuel : nat) (start : Z) : M unit :=
  let root := polyfs_iget (s_root super) in
  let root_offset := to_ulong (Z.shiftl (i_offset root) 2) in
  when (negb (S_ISDIR (i_mode root)))
       (die FSCK_UNCORRECTED "root inode is not directory") ;;
  when (negb (has_flag (s_flags super) POLYFS_FLAG_SHIFTED_ROOT_OFFSET)
        && (negb (root_offset =? sizeof_super)
            && negb (root_offset =? PAD_SIZE + sizeof_super)))
       (die FSCK_UNCORRECTED "bad root offset (%lu)") ;;
  (* umask, geteuid and the set-up of the zlib stream leave no trace here *)
  expand_fs fuel extract_dir root ;;
  test_fs_layout start.

End Checked.

(** ** main, after the command line is parsed *)

Definition polyfsck (fuel : nat) : result unit :=
  (found <- test_super ;;
   let '(start, length, super) := found in
   test_crc super start ;;
   test_fs super fuel start) initial_state.

(** The status the process exits with. *)
Definition exit_status (r : result unit) : option Z :=
  match r with
  | Ok _ _ => Some FSCK_OK
  | Die status _ => Some status
  | Timeout => None
  end.

End Polyfsck.

(** * The checksummed region

    [zero_crc_field] is the region with the four bytes of [fsid.crc] set to
    zero.  [crc_region] is the byte range the checker takes the CRC of: from
    [start] up to offset [size] of the file.  [crc_region_described] is the
    range as the format description words it, [size] bytes from [start]. *)
Definition zero_crc_field (region : bytes) : bytes :=
  blit region offsetof_fsid_crc [0; 0; 0; 0].

Definition crc_region (img : bytes) (start size : Z) : bytes :=
  zero_crc_field (take (size - start) (drop start img)).

Definition crc_region_described (img : bytes) (start size : Z) : bytes :=
  zero_crc_field (take size (drop start img)).

(** * The layout chain of the format description

    The chain of inequalities as the format description requires it of the
    four counters at the end of the walk. *)
Definition layout_chain (start : Z) (super : polyfs_super) (st : state) : Prop :=
  sizeof_super + start <= start_dir st
  /\ start_dir st <= end_dir st
  /\ end_dir st <= start_data st
  /\ start_data st <= end_data st
  /\ end_data st <= s_size super.

(** * Test images

    Values for the constants of the header file, libraries that reject
    every input (the images below are stored uncompressed), and a few small
    images written out byte by byte. *)

Definition sample_header : Header :=
  {| POLYFS_MAGIC := 684539205;
     POLYFS_FLAG_FSID_VERSION_1 := 1;
     POLYFS_FLAG_SHIFTED_ROOT_OFFSET := 1024;
     POLYFS_FLAG_ZLIB_COMPRESSION := 4096;
     POLYFS_FLAG_LZO_COMPRESSION := 8192;
     POLYFS_SUPPORTED_FLAGS := 1 + 1024 + 4096 + 8192;
     POLYFS_BLOCK_MAX_SIZE_WITH_OVERHEAD := 4096 + 4096 / 16 + 64 + 3 |}.

Definition no_libraries : Libraries :=
  {| lzo1x_decompress_safe := fun _ _ _ => (-1, []);
     lzo1x_decompress_overlap := fun _ _ _ _ => (-1, []);
     inflate := fun _ _ _ => (-3, []) |}.

Definition le32_bytes (v : Z) : bytes :=
  [Z.land v 255; Z.land (Z.shiftr v 8) 255; Z.land (Z.shiftr v 16) 255;
   Z.land (Z.shiftr v 24) 255].

Definition inode_bytes (mode uid size gid namelen offset : Z) : bytes :=
  le32_bytes (mode + Z.shiftl uid 16) ++ le32_bytes (size + Z.shiftl gid 24)
  ++ le32_bytes (namelen + Z.shiftl offset 6).

Definition super_bytes (size flags files : Z) (root : bytes) : bytes :=
  le32_bytes (POLYFS_MAGIC (Header := sample_header)) ++ le32_bytes size
  ++ le32_bytes flags ++ le32_bytes 0 ++ zeros 16
  ++ le32_bytes 0 ++ le32_bytes 0 ++ le32_bytes 0 ++ le32_bytes files
  ++ zeros 16 ++ root.

Definition pad_to (n : Z) (l : bytes) : bytes := l ++ zeros (n - blen l).

(** Store the checksum of the bytes from [start] up to offset [size] of the
    file, the way the checker computes it. *)
Definition seal (start size : Z) (img : bytes) : bytes :=
  blit img (start + offsetof_fsid_crc)
       (le32_bytes (crc32 crc32_init (take (size - start) (drop start img)))).

(** The same run when both mmap calls fail. *)
Definition check_by_read (img : bytes) : Run :=
  {| image := img; opt_extract := false; extract_dir := [47];
     euid := 1000; mmap_ok := false; sys_fails := fun _ _ => false |}.

Definition check_only (img : bytes) : Run :=
  {| image := img; opt_extract := false; extract_dir := [47];
     euid := 1000; mmap_ok := true; sys_fails := fun _ _ => false |}.

(** One empty root directory, no files. *)
Definition minimal_image : bytes :=
  Eval vm_compute in
    seal 0 4096
         (pad_to 4096 (super_bytes 4096 1 1 (inode_bytes 16877 0 0 0 0 19))).

(** A root directory whose payload offset is [PAD_SIZE + sizeof_super] in
    an image that starts at offset 0. *)
Definition far_root_image : bytes :=
  Eval vm_compute in
    seal 0 4096
         (pad_to 4096 (super_bytes 4096 1 1 (inode_bytes 16877 0 0 0 0 147))).

(** An image behind a 512-byte pad, in a file that goes on for 512 bytes
    after the end of the filesystem. *)
Definition padded_image : bytes :=
  Eval vm_compute in
    seal 512 4096
         (pad_to 4096
                 (zeros 512
                  ++ super_bytes 4096 1 1 (inode_bytes 16877 0 0 0 0 147)))
    ++ repeat 1 512.

(** A root directory with the one-byte regular file [a], whose block is
    the stored byte 65. *)
Definition one_file_image : bytes :=
  Eval vm_compute in
    seal 0 4096
         (pad_to 4096
                 (super_bytes 4096 1 1 (inode_bytes 16877 0 16 0 0 19)
                  ++ inode_bytes 33188 0 1 0 1 23 ++ [97; 0; 0; 0]
                  ++ le32_bytes 97 ++ [65])).

Definition extract_to_out (img : bytes) : Run :=
  {| image := img; opt_extract := true; extract_dir := [111; 117; 116];
     euid := 1000; mmap_ok := true; sys_fails := fun _ _ => false |}.

(** An image with a flag bit outside the supported set. *)
Definition unknown_flag_image : bytes :=
  Eval vm_compute in
    seal 0 4096
         (pad_to 4096 (super_bytes 4096 3 1 (inode_bytes 16877 0 0 0 0 19))).

(** An image whose root inode is a regular file. *)
Definition file_root_image : bytes :=
  Eval vm_compute in
    seal 0 4096
         (pad_to 4096 (super_bytes 4096 1 1 (inode_bytes 33188 0 0 0 0 19))).

(** The superblock of [minimal_image]: no compression flag is set. *)
Definition plain_super : polyfs_super :=
  Eval vm_compute in
    snd (find_superblock (hdr := sample_header)
                         (run := check_only minimal_image)).

(** A block-end pointer 10 followed by six stored bytes. *)
Definition six_byte_block : bytes := le32_bytes 10 ++ [1; 2; 3; 4; 5; 6].

(** A block-end pointer that equals the start of the block data. *)
Definition hole_block : bytes := le32_bytes 4.

(** A directory at offset 4 with the single record of the empty file [a]
    (12 bytes of inode and 4 bytes of name). *)
Definition one_record_directory : bytes :=
  [0; 0; 0; 0] ++ inode_bytes 33188 0 0 0 1 0 ++ [97; 0; 0; 0].

(** A symbolic link: at offset 4 the block-end pointer 10, then the two
    stored bytes of the target. *)
Definition link_block : bytes := [0; 0; 0; 0] ++ le32_bytes 10 ++ [97; 98].

(** The inode of a link of declared size 3 whose payload is at offset 4. *)
Definition link_inode : polyfs_inode :=
  {| i_mode := 41471; i_uid := 0; i_size := 3; i_gid := 0;
     i_namelen := 1; i_offset := 1 |}.

(** A root directory with the empty directory [d], whose payload offset is
    4, and the one-byte file [a]. *)
Definition low_directory_image : bytes :=
  Eval vm_compute in
    seal 0 4096
         (pad_to 4096
                 (super_bytes 4096 1 1 (inode_bytes 16877 0 32 0 0 19)
                  ++ inode_bytes 16877 0 0 0 1 1 ++ [100; 0; 0; 0]
                  ++ inode_bytes 33188 0 1 0 1 27 ++ [97; 0; 0; 0]
                  ++ le32_bytes 113 ++ [65])).

(** A root directory at offset 76 whose only entry, [a], is a directory at
    offset 76. *)
Definition self_listing_image : bytes :=
  Eval vm_compute in
    seal 0 4096
         (pad_to 4096
                 (super_bytes 4096 1 1 (inode_bytes 16877 0 16 0 0 19)
                  ++ inode_bytes 16877 0 16 0 1 19 ++ [97; 0; 0; 0])).

(** * Vocabulary for the further properties *)

(** [wp m Q st]: when [m] returns from [st], the value and the state it
    returns satisfy [Q]. *)
Definition wp {A} (m : M A) (Q : A -> state -> Prop) (st : state) : Prop :=
  match m st with
  | Ok a st' => Q a st'
  | Die _ _ => True
  | Timeout => True
  end.

(** The layout counters only move outwards from [st] to [st']. *)
Definition counters_le (st st' : state) : Prop :=
  start_dir st' <= start_dir st /\ end_dir st <= end_dir st'
  /\ start_data st' <= start_data st /\ end_data st <= end_data st'.

(** The read window is in step with the file: it has its full length and,
    once a block was requested, it starts with what [read] then gave. *)
Definition window_ok {run : Run} (st : state) : Prop :=
  blen (read_buffer st) = ROMBUFFERSIZE * 2
  /\ (read_buffer_block st = ULONG_MAX
      \/ let pos := to_uint (Z.shiftl (read_buffer_block st) ROMBUFFER_BITS) in
         let data := take (ROMBUFFERSIZE * 2) (drop pos image) in
         take (blen data) (read_buffer st) = data).

(** [extends p q]: the path [q] starts with the bytes of [p]. *)
Definition extends (p q : bytes) : Prop := exists r : bytes, q = p ++ r.

(** The path a system call acts on. *)
Definition syscall_path (c : syscall) : bytes :=
  match c with
  | sys_mkdir path _ => path
  | sys_open path _ => path
  | sys_write path _ => path
  | sys_close path => path
  | sys_symlink _ path => path
  | sys_mknod path _ _ => path
  | sys_lchown path _ _ => path
  | sys_chmod path _ => path
  | sys_utime path => path
  end.

(** [host_grows path st st']: from [st] to [st'] the record of system calls
    grew by calls on paths that start with [path], and by none when the run
    does not extract. *)
Definition host_grows {run : Run} (path : bytes) (st st' : state) : Prop :=
  exists new : list syscall,
    host st' = host st ++ new
    /\ Forall (fun c => extends path (syscall_path c)) new
    /\ (opt_extract = false -> new = []).

(** The run [r] on another file, and the run [r] with mmap succeeding or
    failing. *)
Definition with_image (r : Run) (img : bytes) : Run :=
  {| image := img; opt_extract := @opt_extract r;
     extract_dir := @extract_dir r; euid := @euid r;
     mmap_ok := @mmap_ok r; sys_fails := @sys_fails r |}.

Definition with_mmap (r : Run) (ok : bool) : Run :=
  {| image := @image r; opt_extract := @opt_extract r;
     extract_dir := @extract_dir r; euid := @euid r;
     mmap_ok := ok; sys_fails := @sys_fails r |}.

(** The name of the directory entry at [offset], as the loop of
    [do_directory] copies it to the path: the bytes that follow the inode
    record, up to the first NUL or to the padded length. *)
Definition dir_entry_name {run : Run} (offset : Z) (st : state) : bytes :=
  let child := peek_inode offset st in
  let newlen := to_int (Z.shiftl (i_namelen child) 2) in
  let at_name := to_ulong (offset + sizeof_inode) in
  c_string (take newlen
                 (drop (Z.land at_name ROMBUFFERMASK)
                       (read_buffer
                          (romfs_load at_name
                                      (romfs_load (to_uint offset) st))))).


(** The ranges of the packed fields of an inode that the layout depends
    on: a 26-bit offset and a 24-bit size. *)
Definition inode_in_range (i : polyfs_inode) : Prop :=
  0 <= i_offset i < 2 ^ 26 /\ 0 <= i_size i < 2 ^ 24.

(** No file data was seen yet, or the data region is not empty. *)
Definition data_ordered (st : state) : Prop :=
  start_data st = ULONG_MAX \/ start_data st < end_data st.

(** * Properties *)

(** zlib's check value: the CRC-32 of the ASCII digits 1 to 9. *)
Example crc32_check_value :
  crc32 crc32_init [49; 50; 51; 52; 53; 54; 55; 56; 57] = 3421780262.
Proof. vm_compute. reflexivity. Qed.


Section Properties.

Context {hdr : Header} {libs : Libraries} {run : Run}.

(** ** The superblock tests *)

(** What [test_super] has established when it returns. *)
Lemma test_super_ok (st st' : state) (start length : Z) (super : polyfs_super) :
  test_super st = Ok (start, length, super) st' ->
  st' = st /\ (start, super) = find_superblock /\ length = blen image
  /\ (start = 0 \/ start = PAD_SIZE)
  /\ has_flag (s_flags super) POLYFS_FLAG_FSID_VERSION_1 = true
  /\ POLYFS_BLOCK_SIZE <= s_size super <= blen image.
Proof.
  unfold test_super, die, ret.
  destruct (blen image <? sizeof_super) eqn:Hlen; [discriminate|].
  assert (Hstart : fst find_superblock = 0 \/ fst find_superblock = PAD_SIZE).
  { unfold find_superblock.
    repeat match goal with |- context [if ?c then _ else _] => destruct c end;
      simpl; auto. }
  destruct find_superblock as [start0 super0]; simpl in Hstart.
  destruct (negb (s_magic super0 =? POLYFS_MAGIC)); [discriminate|].
  destruct (negb (Z.land (s_flags super0) (Z.lnot POLYFS_SUPPORTED_FLAGS) =? 0));
    [discriminate|].
  destruct (s_size super0 <? POLYFS_BLOCK_SIZE) eqn:Hsize; [discriminate|].
  destruct (has_flag (s_flags super0) POLYFS_FLAG_FSID_VERSION_1) eqn:Hv1;
    [|discriminate].
  destruct (fsid_files super0 =? 0); [discriminate|].
  destruct (blen image <? s_size super0) eqn:Hshort; [discriminate|].
  intros H; inversion H; subst.
  repeat split; auto; lia.
Qed.

(** C8: an image whose superblock carries a flag bit outside the supported
    set makes the checker exit with FSCK_ERROR (8) and the message
    "unsupported filesystem features", not with FSCK_UNCORRECTED (4). *)
Theorem unsupported_features_exit_error (fuel : nat) :
  sizeof_super <= blen image ->
  s_magic (snd find_superblock) = POLYFS_MAGIC ->
  Z.land (s_flags (snd find_superblock)) (Z.lnot POLYFS_SUPPORTED_FLAGS) <> 0 ->
  polyfsck fuel = Die FSCK_ERROR "unsupported filesystem features"
  /\ exit_status (polyfsck fuel) = Some 8
  /\ exit_status (polyfsck fuel) <> Some FSCK_UNCORRECTED.
Proof.
  intros Hlen Hmagic Hflags.
  assert (E : polyfsck fuel = Die FSCK_ERROR "unsupported filesystem features").
  { unfold polyfsck, bind, test_super, die.
    destruct (blen image <? sizeof_super) eqn:Hlt; [lia|].
    destruct find_superblock as [start super]; simpl in *.
    rewrite Hmagic, Z.eqb_refl; simpl.
    destruct (Z.land (s_flags super) (Z.lnot POLYFS_SUPPORTED_FLAGS) =? 0)
      eqn:Hz; [lia|reflexivity]. }
  rewrite E; repeat split; simpl; discriminate.
Qed.

(** ** The root inode *)

(** C9: when the superblock and CRC tests have passed and the mode of the
    root inode does not carry the directory type bits, the run ends with
    FSCK_UNCORRECTED "root inode is not directory", whatever the fuel: no
    handler is entered, not even with fuel 0. *)
Theorem root_not_directory (start length : Z) (super : polyfs_super)
    (st1 st2 : state) :
  test_super initial_state = Ok (start, length, super) st1 ->
  test_crc super start st1 = Ok tt st2 ->
  S_ISDIR (i_mode (polyfs_iget (s_root super))) = false ->
  forall fuel : nat,
    test_fs super fuel start st2
    = Die FSCK_UNCORRECTED "root inode is not directory"
    /\ polyfsck fuel = Die FSCK_UNCORRECTED "root inode is not directory".
Proof.
  intros Hsuper Hcrc Hdir fuel.
  assert (E : test_fs super fuel start st2
              = Die FSCK_UNCORRECTED "root inode is not directory").
  { unfold test_fs, bind, when. rewrite Hdir. reflexivity. }
  split; [exact E|].
  unfold polyfsck, bind. rewrite Hsuper.
  fold (bind (test_crc super start) (fun _ => test_fs super fuel start) st1).
  unfold bind. rewrite Hcrc. exact E.
Qed.

(** ** The file-data expander *)

Ltac run_monad :=
  unfold when, bind, ret, get, modify, die, timeout in *.

(** One turn of the loop of [do_uncompress], split at the point where [out]
    is known. *)
Lemma do_uncompress_loop_turn (super : polyfs_super) (n : nat) (path : bytes)
    (offset size curr : Z) (st : state) :
  do_uncompress_loop super (S n) path offset size curr st =
  match do_uncompress_block super offset size curr st with
  | Ok (next, out) st' =>
    ((if size >=? POLYFS_BLOCK_SIZE then
        when (negb (out =? POLYFS_BLOCK_SIZE))
             (die FSCK_UNCORRECTED "non-block (%ld) bytes")
      else
        when (negb (out =? size))
             (die FSCK_UNCORRECTED "non-size (%ld vs %ld) bytes")) ;;
     when opt_extract
          (ob <- get outbuffer ;;
           sys (sys_write path (take out ob)) "write failed: %s") ;;
     if to_ulong (size - out) =? 0 then ret tt
     else do_uncompress_loop super n path (to_ulong (offset + 4))
                             (to_ulong (size - out)) next) st'
  | Die status msg => Die status msg
  | Timeout => Timeout
  end.
Proof.
  simpl. unfold do_uncompress_block, romfs_read. run_monad.
  set (next := le32 (drop (Z.land offset ROMBUFFERMASK)
                          (read_buffer (romfs_load offset st)))).
  destruct (next >? end_data (romfs_load offset st)); cbv beta iota;
    (destruct (curr =? next); cbv beta iota; [reflexivity|]);
    destruct (uncompress_block _ _ _ _); reflexivity.
Qed.

(** C5: in every turn of the expander's loop, a block expanded while at
    least POLYFS_BLOCK_SIZE bytes of the file remain must have length
    POLYFS_BLOCK_SIZE, and the short last block must have the length that
    remains; a mismatch ends the run with FSCK_UNCORRECTED ("non-block" or
    "non-size"), so a loop that returns has seen the expected length. *)
Theorem block_length_enforced (super : polyfs_super) (n : nat) (path : bytes)
    (offset size curr next out : Z) (st st' : state) :
  do_uncompress_block super offset size curr st = Ok (next, out) st' ->
  (POLYFS_BLOCK_SIZE <= size -> out <> POLYFS_BLOCK_SIZE ->
   do_uncompress_loop super (S n) path offset size curr st
   = Die FSCK_UNCORRECTED "non-block (%ld) bytes")
  /\ (size < POLYFS_BLOCK_SIZE -> out <> size ->
      do_uncompress_loop super (S n) path offset size curr st
      = Die FSCK_UNCORRECTED "non-size (%ld vs %ld) bytes")
  /\ (forall st'' : state,
        do_uncompress_loop super (S n) path offset size curr st = Ok tt st'' ->
        out = Z.min POLYFS_BLOCK_SIZE size).
Proof.
  intros Hblock. rewrite do_uncompress_loop_turn, Hblock. run_monad.
  repeat split.
  - intros Hsize Hout.
    destruct (size >=? POLYFS_BLOCK_SIZE) eqn:E; [|lia].
    destruct (out =? POLYFS_BLOCK_SIZE) eqn:E'; [lia|reflexivity].
  - intros Hsize Hout.
    destruct (size >=? POLYFS_BLOCK_SIZE) eqn:E; [lia|].
    destruct (out =? size) eqn:E'; [lia|reflexivity].
  - intros st''.
    destruct (size >=? POLYFS_BLOCK_SIZE) eqn:E.
    + destruct (out =? POLYFS_BLOCK_SIZE) eqn:E'; simpl; [lia|discriminate].
    + destruct (out =? size) eqn:E'; simpl; [lia|discriminate].
Qed.

Lemma take_blit_zeros (out : Z) (ob : bytes) :
  take out (blit ob 0 (zeros out)) = zeros out.
Proof.
  unfold blit, take, zeros; simpl.
  rewrite firstn_app, firstn_all2 by (rewrite repeat_length; lia).
  rewrite repeat_length, Nat.sub_diag; simpl. apply app_nil_r.
Qed.

(** C6: when the block-end pointer read for a block equals the start of its
    data ([curr == next]) the block is a hole: [out] is the smaller of
    POLYFS_BLOCK_SIZE and the size that remains, the first [out] bytes of
    the output buffer are zero, and what the loop writes for this block
    when extracting is [out] zero bytes; no length test fails. *)
Theorem hole_is_zero_filled (super : polyfs_super) (n : nat) (path : bytes)
    (offset size curr : Z) (st : state) :
  read_u32 offset st = curr ->
  let out := Z.min POLYFS_BLOCK_SIZE size in
  exists st1 : state,
    do_uncompress_block super offset size curr st = Ok (curr, out) st1
    /\ take out (outbuffer st1) = zeros out
    /\ (0 <= size -> blen (zeros out) = out)
    /\ do_uncompress_loop super (S n) path offset size curr st =
       (when opt_extract
             (sys (sys_write path (zeros out)) "write failed: %s") ;;
        if to_ulong (size - out) =? 0 then ret tt
        else do_uncompress_loop super n path (to_ulong (offset + 4))
                                (to_ulong (size - out)) curr) st1.
Proof.
  intros Hnext out.
  assert (Hout : (if size <? POLYFS_BLOCK_SIZE then size
                  else POLYFS_BLOCK_SIZE) = out).
  { unfold out. destruct (size <? POLYFS_BLOCK_SIZE) eqn:E; lia. }
  assert (Hblock : exists st1,
             do_uncompress_block super offset size curr st = Ok (curr, out) st1
             /\ take out (outbuffer st1) = zeros out).
  { unfold do_uncompress_block, romfs_read. run_monad.
    fold (read_u32 offset st). rewrite Hnext, Z.eqb_refl, Hout.
    destruct (curr >? end_data (romfs_load offset st));
      eexists; (split; [reflexivity|]); simpl; apply take_blit_zeros. }
  destruct Hblock as (st1 & Hblock & Hzero).
  exists st1. repeat split; auto.
  - intros Hsize. unfold zeros, blen. rewrite repeat_length.
    unfold out, POLYFS_BLOCK_SIZE. lia.
  - rewrite do_uncompress_loop_turn, Hblock. run_monad.
    assert (Hpass : (if size >=? POLYFS_BLOCK_SIZE
                     then negb (out =? POLYFS_BLOCK_SIZE)
                     else negb (out =? size)) = false).
    { unfold out. destruct (size >=? POLYFS_BLOCK_SIZE) eqn:E.
      - rewrite Z.min_l by lia. now rewrite Z.eqb_refl.
      - rewrite Z.min_r by lia. now rewrite Z.eqb_refl. }
    destruct (size >=? POLYFS_BLOCK_SIZE);
      rewrite Hpass; destruct opt_extract; rewrite ?Hzero; reflexivity.
Qed.

(** ** Symbolic links *)

Lemma to_int_range (z : Z) : - 2 ^ 31 <= to_int z < 2 ^ 31.
Proof.
  unfold to_int. change (2 ^ 31) with 2147483648.
  change (2 ^ 32) with 4294967296.
  pose proof (Z.mod_pos_bound (z + 2147483648) 4294967296). lia.
Qed.

Lemma to_int_small (z : Z) : - 2 ^ 31 <= z < 2 ^ 31 -> to_int z = z.
Proof.
  unfold to_int. change (2 ^ 31) with 2147483648.
  change (2 ^ 32) with 4294967296. intros H.
  rewrite Z.mod_small by lia. lia.
Qed.

Lemma to_ulong_of_int (r s : Z) :
  - 2 ^ 31 <= r < 2 ^ 31 -> 0 <= s < 2 ^ 24 -> r <> s -> to_ulong r <> s.
Proof.
  unfold to_ulong. change (2 ^ 31) with 2147483648.
  change (2 ^ 24) with 16777216. change (2 ^ 64) with 18446744073709551616.
  intros Hr Hs Hne. Z.div_mod_to_equations. lia.
Qed.

(** [uncompress_block] returns an [int]. *)
Lemma uncompress_block_int (super : polyfs_super) (src : bytes) (len r : Z)
    (st st' : state) :
  - 2 ^ 31 <= len < 2 ^ 31 ->
  uncompress_block super src len st = Ok r st' ->
  - 2 ^ 31 <= r < 2 ^ 31.
Proof.
  intros Hlen. unfold uncompress_block. run_monad.
  repeat match goal with
         | |- context [let '(_, _) := ?p in _] => destruct p
         | |- context [if ?c then _ else _] => destruct c
         end;
    intros H; inversion H; subst; auto using to_int_range.
Qed.

(** The size of an inode read from the image is a 24-bit value. *)
Lemma polyfs_iget_size (p : bytes) : 0 <= i_size (polyfs_iget p) < 2 ^ 24.
Proof.
  unfold polyfs_iget; simpl.
  change (Z.land (le32 (drop 4 p)) 16777215)
    with (Z.land (le32 (drop 4 p)) (Z.ones 24)).
  rewrite Z.land_ones by lia.
  apply Z.mod_pos_bound. reflexivity.
Qed.

(** [do_symlink], split at the return of [uncompress_block]. *)
Lemma do_symlink_split (super : polyfs_super) (path : bytes)
    (i : polyfs_inode) (st : state) :
  do_symlink super path i st =
  match do_symlink_block super i st with
  | Ok r st' =>
    (let size := to_ulong r in
     when (negb (size =? i_size i))
          (die FSCK_UNCORRECTED "size error in symlink: %s") ;;
     modify (fun st => set_outbuffer (store (outbuffer st) size 0) st) ;;
     when opt_extract
          (ob <- get outbuffer ;;
           sys (sys_symlink (c_string ob) path) "symlink failed: %s" ;;
           change_file_status path i)) st'
  | Die status msg => Die status msg
  | Timeout => Timeout
  end.
Proof.
  unfold do_symlink, do_symlink_block, romfs_read. run_monad.
  repeat match goal with
         | |- context [if ?c then _ else _] =>
           lazymatch c with
           | opt_extract => fail
           | negb _ => fail
           | _ => destruct c; cbv beta iota; try reflexivity
           end
         end;
    destruct (uncompress_block _ _ _ _); reflexivity.
Qed.

(** C7: a symbolic link with payload offset 0 or size 0 ends the run with
    FSCK_UNCORRECTED, and so does a link whose block decompresses to a
    length other than the size in its inode. *)
Theorem symlink_checks (super : polyfs_super) (path : bytes)
    (i : polyfs_inode) (st : state) :
  (i_offset i = 0 ->
   do_symlink super path i st
   = Die FSCK_UNCORRECTED "symbolic link has zero offset")
  /\ (i_size i = 0 ->
      exists msg : string,
        do_symlink super path i st = Die FSCK_UNCORRECTED msg)
  /\ (forall (r : Z) (st' : state),
        0 <= i_size i < 2 ^ 24 ->
        do_symlink_block super i st = Ok r st' ->
        r <> i_size i ->
        do_symlink super path i st
        = Die FSCK_UNCORRECTED "size error in symlink: %s").
Proof.
  repeat split.
  - intros Hoff. unfold do_symlink, romfs_read. run_monad.
    rewrite Hoff. reflexivity.
  - intros Hsize. unfold do_symlink, romfs_read. run_monad.
    rewrite Hsize.
    destruct (to_ulong (Z.shiftl (i_offset i) 2) =? 0); eexists; reflexivity.
  - intros r st' Hsize Hblock Hne.
    rewrite do_symlink_split, Hblock. run_monad.
    assert (Hr : - 2 ^ 31 <= r < 2 ^ 31).
    { revert Hblock. unfold do_symlink_block, romfs_read. run_monad.
      repeat match goal with
             | |- context [if ?c then _ else _] =>
               destruct c; cbv beta iota; try discriminate
             end;
        apply uncompress_block_int, to_int_range. }
    pose proof (to_ulong_of_int r (i_size i) Hr Hsize Hne) as Hu.
    destruct (to_ulong r =? i_size i) eqn:E; [lia|reflexivity].
Qed.

(** ** The directory walker *)

Lemma polyfs_iget_namelen (p : bytes) : 0 <= i_namelen (polyfs_iget p) <= 63.
Proof.
  unfold polyfs_iget; simpl.
  change (Z.land (le32 (drop 8 p)) 63)
    with (Z.land (le32 (drop 8 p)) (Z.ones 6)).
  rewrite Z.land_ones by lia. change (2 ^ 6) with 64.
  pose proof (Z.mod_pos_bound (le32 (drop 8 p)) 64). lia.
Qed.

(** The length of a child record, as the loop computes it. *)
Lemma child_record_size (child : polyfs_inode) :
  0 <= i_namelen child <= 63 ->
  to_int (Z.shiftl (i_namelen child) 2) = 4 * i_namelen child
  /\ to_int (sizeof_inode + to_int (Z.shiftl (i_namelen child) 2))
     = sizeof_inode + 4 * i_namelen child.
Proof.
  intros H. rewrite Z.shiftl_mul_pow2 by lia. change (2 ^ 2) with 4.
  unfold sizeof_inode.
  rewrite (to_int_small (i_namelen child * 4))
    by (change (2 ^ 31) with 2147483648; lia).
  rewrite to_int_small by (change (2 ^ 31) with 2147483648; lia).
  lia.
Qed.

(** With nothing left to count the loop is over, whatever the fuel. *)
Lemma do_directory_loop_done (expand : bytes -> polyfs_inode -> M unit)
    (n : nat) (newpath : bytes) (count offset : Z) :
  count <= 0 -> do_directory_loop expand n newpath count offset = ret tt.
Proof.
  intros H. destruct n; simpl;
    (destruct (count >? 0) eqn:E; [lia|reflexivity]).
Qed.

(** C10: the loop over the children of a directory never compares the
    declared size with the sum of the record sizes.  It stops without an
    error as soon as the signed count is zero or negative, and a count that
    ends inside a child record is walked exactly like the count that ends
    after that record. *)
Theorem directory_size_not_checked (expand : bytes -> polyfs_inode -> M unit)
    (n : nat) (newpath : bytes) (count offset : Z) (st : state) :
  (count <= 0 ->
   do_directory_loop expand n newpath count offset st = Ok tt st)
  /\ (let record := sizeof_inode + 4 * i_namelen (peek_inode offset st) in
      0 < count < record ->
      do_directory_loop expand (S n) newpath count offset st
      = do_directory_loop expand (S n) newpath record offset st).
Proof.
  split.
  - intros H. now rewrite do_directory_loop_done.
  - intros record Hcount.
    assert (Hname : 0 <= i_namelen (peek_inode offset st) <= 63)
      by apply polyfs_iget_namelen.
    destruct (child_record_size _ Hname) as [Hnewlen Hsize].
    fold record in Hsize.
    assert (Hrecord : 12 <= record <= 264) by (unfold record, sizeof_inode; lia).
    cbn [do_directory_loop].
    destruct (count >? 0) eqn:E1; [|lia].
    destruct (record >? 0) eqn:E2; [|lia].
    unfold iget, romfs_read. run_monad.
    fold (peek_inode offset st). rewrite Hsize, Hnewlen.
    rewrite !do_directory_loop_done; [reflexivity| |].
    + rewrite Z.sub_diag. vm_compute. discriminate.
    + rewrite to_int_small by (change (2 ^ 31) with 2147483648; lia). lia.
Qed.

(** ** The layout counters *)

Lemma sys_counters (c : syscall) (fmt : string) (st st' : state) :
  sys c fmt st = Ok tt st' -> counters st' = counters st.
Proof.
  unfold sys. destruct (sys_fails (host st) c); [discriminate|].
  intros H; inversion H; reflexivity.
Qed.

Lemma change_file_status_counters (path : bytes) (i : polyfs_inode)
    (st st' : state) :
  change_file_status path i st = Ok tt st' -> counters st' = counters st.
Proof.
  unfold change_file_status, sys. run_monad.
  repeat match goal with
         | |- context [if ?c then _ else _] =>
           destruct c; cbv beta iota; try discriminate
         end;
    intros H; inversion H; reflexivity.
Qed.

(** Once a child has been walked the directory region is not empty: the
    loop either does nothing or leaves [start_dir < end_dir]. *)
Lemma do_directory_loop_layout (expand : bytes -> polyfs_inode -> M unit)
    (n : nat) (newpath : bytes) :
  forall (count offset : Z) (st st' : state),
    do_directory_loop expand n newpath count offset st = Ok tt st' ->
    st' = st \/ start_dir st' < end_dir st'.
Proof.
  induction n as [|n IH]; intros count offset st st'; cbn [do_directory_loop];
    (destruct (count >? 0); [|intros H; inversion H; auto]).
  - discriminate.
  - unfold iget, romfs_read. run_monad.
    destruct (_ =? 0); [discriminate|].
    destruct (_ >? 3); [discriminate|].
    destruct (expand _ _ _) as [[] st1| |]; try discriminate.
    destruct (_ <=? start_dir st1) eqn:Hbad; [discriminate|].
    destruct (_ >? end_dir st1) eqn:Hend; intros H; apply IH in H;
      (destruct H as [H|H];
       [subst st'; right; unfold set_end_dir; cbn [start_dir end_dir]; lia
       |auto]).
Qed.

Lemma do_directory_layout (expand : bytes -> polyfs_inode -> M unit)
    (n : nat) (path : bytes) (i : polyfs_inode) (st st' : state) :
  do_directory expand n path i st = Ok tt st' ->
  start_data st' = start_data st \/ start_dir st' < end_dir st'.
Proof.
  assert (Hbody : forall (newpath : bytes) (count offset : Z) (st0 : state),
             start_data st0 = start_data st ->
             (when opt_extract
                   (sys (sys_mkdir path (i_mode i)) "mkdir failed: %s" ;;
                    change_file_status path i) ;;
              do_directory_loop expand n newpath count offset) st0
             = Ok tt st' ->
             start_data st' = start_data st \/ start_dir st' < end_dir st').
  { intros newpath count offset st0 Hst0. run_monad.
    destruct opt_extract.
    - destruct (sys _ _ st0) as [[] st1| |] eqn:Hsys; try discriminate.
      destruct (change_file_status _ _ st1) as [[] st2| |] eqn:Hchg;
        try discriminate.
      apply sys_counters in Hsys. apply change_file_status_counters in Hchg.
      intros H; apply do_directory_loop_layout in H.
      destruct H as [H|H]; [subst st'; left|auto].
      unfold counters in *. congruence.
    - intros H; apply do_directory_loop_layout in H.
      destruct H as [H|H]; [subst st'; left; auto|auto]. }
  unfold do_directory.
  unfold bind at 1, when at 1.
  destruct (_ && _); [discriminate|].
  unfold ret at 1, bind at 1, get at 1, bind at 1, when at 1.
  destruct (negb _ && _); [unfold modify at 1|unfold ret at 1];
    apply Hbody; reflexivity.
Qed.

Lemma test_crc_state (super : polyfs_super) (start : Z) (st st' : state) :
  test_crc super start st = Ok tt st' -> st' = st.
Proof.
  unfold test_crc. run_monad.
  repeat match goal with
         | |- context [if ?c then _ else _] => destruct c; try discriminate
         end;
    intros H; inversion H; reflexivity.
Qed.

(** What an accepted run has gone through. *)
Lemma polyfsck_accepts (fuel : nat) (st : state) :
  polyfsck fuel = Ok tt st ->
  exists (start : Z) (super : polyfs_super),
    (start, super) = find_superblock
    /\ (start = 0 \/ start = PAD_SIZE)
    /\ has_flag (s_flags super) POLYFS_FLAG_FSID_VERSION_1 = true
    /\ POLYFS_BLOCK_SIZE <= s_size super <= blen image
    /\ test_crc super start initial_state = Ok tt initial_state
    /\ test_fs super fuel start initial_state = Ok tt st.
Proof.
  unfold polyfsck. unfold bind at 1.
  destruct (test_super initial_state) as [[[start length] super] st1| |] eqn:Hs;
    try discriminate.
  apply test_super_ok in Hs.
  destruct Hs as (-> & Hfind & _ & Hstart & Hv1 & Hsize).
  unfold bind.
  destruct (test_crc super start initial_state) as [[] st2| |] eqn:Hc;
    try discriminate.
  pose proof (test_crc_state _ _ _ _ Hc) as ->.
  intros Hfs. exists start, super. repeat split; auto; lia.
Qed.

(** The tests that follow the walk leave the state alone; when they pass,
    the tested relations hold. *)
Lemma test_fs_layout_ok (super : polyfs_super) (start : Z) (st st' : state) :
  test_fs_layout super start st = Ok tt st' ->
  st' = st
  /\ (start_data st <> ULONG_MAX ->
      to_ulong (sizeof_super + start) <= start_data st
      /\ end_dir st = start_data st)
  /\ (has_flag (s_flags super) POLYFS_FLAG_FSID_VERSION_1 = true ->
      end_data st <= s_size super).
Proof.
  unfold test_fs_layout. run_monad.
  destruct (start_data st =? ULONG_MAX) eqn:Hdef; cbn [negb];
    [|destruct (start_data st <? to_ulong (sizeof_super + start)) eqn:Hlow;
      cbv beta iota; [discriminate|];
      destruct (end_dir st =? start_data st) eqn:Heq; cbn [negb];
      cbv beta iota; [|discriminate]];
    (destruct (has_flag (s_flags super) POLYFS_FLAG_FSID_VERSION_1);
     [destruct (end_data st >? s_size super) eqn:Hend;
      cbv beta iota; [discriminate|]|]);
    intros H; inversion H; subst; repeat split; intros;
    try reflexivity; try lia; discriminate.
Qed.

(** C1 (as the code has it): an accepted image leaves
    [end_data <= super.size]; when some file or link data was seen
    ([start_data] is not the initial ~0UL) it also leaves
    [sizeof(super) + start <= start_data] and
    [start_dir < end_dir = start_data].  The tests after the walk are these
    three: with [start_data] set, [start_data < sizeof(super) + start] and
    [end_dir != start_data], and in every case [end_data > super.size];
    each ends the run with FSCK_UNCORRECTED and a message of its own, and
    nothing else is required. *)
Theorem layout_after_walk :
  (forall (fuel : nat) (st : state),
      polyfsck fuel = Ok tt st ->
      let start := fst find_superblock in
      let super := snd find_superblock in
      end_data st <= s_size super
      /\ (start_data st <> ULONG_MAX ->
          sizeof_super + start <= start_data st
          /\ start_dir st < end_dir st
          /\ end_dir st = start_data st))
  /\ (forall (super : polyfs_super) (start : Z) (st : state),
        has_flag (s_flags super) POLYFS_FLAG_FSID_VERSION_1 = true ->
        (start_data st <> ULONG_MAX ->
         start_data st < to_ulong (sizeof_super + start) ->
         test_fs_layout super start st
         = Die FSCK_UNCORRECTED
               "directory data start (%ld) < sizeof(struct polyfs_super) + start (%ld)")
        /\ (start_data st <> ULONG_MAX ->
            to_ulong (sizeof_super + start) <= start_data st ->
            end_dir st <> start_data st ->
            test_fs_layout super start st
            = Die FSCK_UNCORRECTED
                  "directory data end (%ld) != file data start (%ld)")
        /\ (start_data st = ULONG_MAX
            \/ (to_ulong (sizeof_super + start) <= start_data st
                /\ end_dir st = start_data st) ->
            (end_data st > s_size super ->
             test_fs_layout super start st
             = Die FSCK_UNCORRECTED "invalid file data offset")
            /\ (end_data st <= s_size super ->
                test_fs_layout super start st = Ok tt st))).
Proof.
  split.
  - intros fuel st Hok.
    destruct (polyfsck_accepts _ _ Hok)
      as (start & super & Hfind & Hstart & Hv1 & Hsize & _ & Hfs).
    rewrite <- Hfind. cbn [fst snd].
    revert Hfs. unfold test_fs. run_monad.
    destruct (negb (S_ISDIR _)) eqn:Hdir; [discriminate|].
    destruct (negb (has_flag _ _) && _); [discriminate|].
    destruct (expand_fs super fuel extract_dir _ initial_state)
      as [[] st1| |] eqn:Hwalk; try discriminate.
    intros Hlayout. apply test_fs_layout_ok in Hlayout.
    destruct Hlayout as (-> & Hdata & Hend).
    split; [auto|]. intros Hdef.
    destruct (Hdata Hdef) as [Hlow Heq].
    assert (Hsz : to_ulong (sizeof_super + start) = sizeof_super + start).
    { unfold to_ulong, sizeof_super, PAD_SIZE in *.
      change (2 ^ 64) with 18446744073709551616.
      destruct Hstart; subst; reflexivity. }
    rewrite Hsz in Hlow. repeat split; auto.
    destruct fuel as [|fuel]; [discriminate|].
    cbn [expand_fs] in Hwalk.
    apply negb_false_iff in Hdir. rewrite Hdir in Hwalk.
    apply do_directory_layout in Hwalk.
    destruct Hwalk as [Hsame|Hlt]; [|exact Hlt].
    exfalso. apply Hdef. rewrite Hsame. reflexivity.
  - intros super start st Hv1. unfold test_fs_layout. run_monad.
    rewrite Hv1. repeat split.
    + intros Hdef Hlow.
      destruct (start_data st =? ULONG_MAX) eqn:E; [lia|]. cbn [negb].
      destruct (start_data st <? to_ulong (sizeof_super + start)) eqn:E';
        [reflexivity|lia].
    + intros Hdef Hlow Hne.
      destruct (start_data st =? ULONG_MAX) eqn:E; [lia|]. cbn [negb].
      destruct (start_data st <? to_ulong (sizeof_super + start)) eqn:E';
        [lia|].
      destruct (end_dir st =? start_data st) eqn:E''; [lia|reflexivity].
    + intros Hend.
      destruct (start_data st =? ULONG_MAX) eqn:E; cbn [negb].
      * destruct (end_data st >? s_size super) eqn:E'; [reflexivity|lia].
      * destruct H as [H|[Hlow Heq]]; [lia|].
        destruct (start_data st <? to_ulong (sizeof_super + start)) eqn:E';
          [lia|].
        destruct (end_dir st =? start_data st) eqn:E''; [|lia]. cbn [negb].
        destruct (end_data st >? s_size super) eqn:E3; [reflexivity|lia].
    + intros Hend.
      destruct (start_data st =? ULONG_MAX) eqn:E; cbn [negb].
      * destruct (end_data st >? s_size super) eqn:E'; [lia|reflexivity].
      * destruct H as [H|[Hlow Heq]]; [lia|].
        destruct (start_data st <? to_ulong (sizeof_super + start)) eqn:E';
          [lia|].
        destruct (end_dir st =? start_data st) eqn:E''; [|lia]. cbn [negb].
        destruct (end_data st >? s_size super) eqn:E3; [lia|reflexivity].
Qed.

(** C3 (as the code has it): without SHIFTED_ROOT_OFFSET the payload
    offset of the root directory must be [sizeof(super)] or
    [PAD_SIZE + sizeof(super)]; any other value ends the run with
    FSCK_UNCORRECTED, and either of the two is let through whatever [start]
    is. *)
Theorem root_offset_two_values (super : polyfs_super) (fuel : nat)
    (start : Z) (st : state) :
  has_flag (s_flags super) POLYFS_FLAG_SHIFTED_ROOT_OFFSET = false ->
  S_ISDIR (i_mode (polyfs_iget (s_root super))) = true ->
  let root := polyfs_iget (s_root super) in
  let root_offset := to_ulong (Z.shiftl (i_offset root) 2) in
  (root_offset <> sizeof_super -> root_offset <> PAD_SIZE + sizeof_super ->
   test_fs super fuel start st = Die FSCK_UNCORRECTED "bad root offset (%lu)")
  /\ (root_offset = sizeof_super \/ root_offset = PAD_SIZE + sizeof_super ->
      test_fs super fuel start st
      = (expand_fs super fuel extract_dir root ;;
         test_fs_layout super start) st).
Proof.
  intros Hflag Hdir root root_offset. unfold test_fs.
  fold root. fold root_offset.
  unfold bind at 1, when at 1. unfold root. rewrite Hdir. cbn [negb].
  unfold ret at 1. unfold bind at 1, when at 1. rewrite Hflag. cbn [negb andb].
  split.
  - intros H1 H2.
    destruct (root_offset =? sizeof_super) eqn:E1; [lia|].
    destruct (root_offset =? PAD_SIZE + sizeof_super) eqn:E2; [lia|].
    reflexivity.
  - intros H.
    assert (E : negb (root_offset =? sizeof_super)
                && negb (root_offset =? PAD_SIZE + sizeof_super) = false).
    { destruct H as [H|H]; rewrite H; rewrite ?Z.eqb_refl;
        [reflexivity|apply andb_false_r]. }
    rewrite E. reflexivity.
Qed.

(** ** The CRC test *)

Lemma lxor_twice (c m : Z) : Z.lxor (Z.lxor c m) m = c.
Proof. now rewrite Z.lxor_assoc, Z.lxor_nilpotent, Z.lxor_0_r. Qed.

Lemma crc32_nil (c : Z) : crc32 c [] = c.
Proof. unfold crc32; simpl. apply lxor_twice. Qed.

(** The running CRC of zlib: two calls in a row give the CRC of the two
    buffers joined. *)
Lemma crc32_app (c : Z) (a b : bytes) : crc32 (crc32 c a) b = crc32 c (a ++ b).
Proof. unfold crc32. now rewrite lxor_twice, fold_left_app. Qed.

Lemma byte_at_range (p : bytes) (i : nat) : 0 <= byte_at p i <= 255.
Proof.
  unfold byte_at.
  change (Z.land (nth i p 0) 255) with (Z.land (nth i p 0) (Z.ones 8)).
  rewrite Z.land_ones by lia. change (2 ^ 8) with 256.
  pose proof (Z.mod_pos_bound (nth i p 0) 256). lia.
Qed.

Lemma le32_range (p : bytes) : 0 <= le32 p < 2 ^ 32.
Proof.
  unfold le32. rewrite !Z.shiftl_mul_pow2 by lia.
  change (2 ^ 8) with 256. change (2 ^ 16) with 65536.
  change (2 ^ 24) with 16777216. change (2 ^ 32) with 4294967296.
  pose proof (byte_at_range p 0). pose proof (byte_at_range p 1).
  pose proof (byte_at_range p 2). pose proof (byte_at_range p 3). lia.
Qed.

Section CrcRead.

Variable super : polyfs_super.
Variables s lim : nat.

(** [R] is the file from [start] on, [P] the same with the CRC field set
    to zero. *)
Variable R : bytes.
Hypothesis HR : R = skipn s image.
Local Abbreviation P := (zero_crc_field R).

Hypothesis Hlimit : to_uint (s_size super - Z.of_nat s) = Z.of_nat lim.
Hypothesis Hlim : (36 <= lim <= List.length R)%nat.

Lemma patched_region :
  P = firstn 32 R ++ [0; 0; 0; 0] ++ skipn 36 R.
Proof. reflexivity. Qed.

Lemma skipn_past (A B T : bytes) (l : nat) :
  (List.length A + List.length B <= l)%nat ->
  skipn l (A ++ B ++ T) = skipn (l - List.length A - List.length B) T.
Proof.
  intros H. rewrite !skipn_app.
  rewrite (skipn_all2 A) by lia. rewrite (skipn_all2 B) by lia.
  reflexivity.
Qed.

Lemma patched_skipn (l : nat) : (36 <= l)%nat -> skipn l P = skipn l R.
Proof.
  intros Hl. rewrite patched_region.
  transitivity (skipn l (firstn 32 R ++ firstn 4 (skipn 32 R) ++ skipn 36 R)).
  - rewrite !skipn_past; rewrite ?length_firstn, ?length_skipn;
      simpl List.length; try lia.
    f_equal. lia.
  - f_equal.
    change 36%nat with (4 + 32)%nat. rewrite <- skipn_skipn.
    now rewrite !firstn_skipn.
Qed.

Lemma patched_length : List.length P = List.length R.
Proof.
  rewrite patched_region, !length_app, length_firstn, length_skipn.
  simpl List.length. lia.
Qed.

(** The buffer after the first read, with the CRC field set to zero. *)
Lemma patched_chunk (C : nat) (junk : bytes) :
  (36 <= C)%nat ->
  blit (firstn C R ++ junk) offsetof_fsid_crc [0; 0; 0; 0]
  = firstn C P ++ junk.
Proof.
  intros HC. unfold blit, take, drop, offsetof_fsid_crc.
  change (Z.to_nat 32) with 32%nat.
  change (Z.to_nat (32 + blen [0; 0; 0; 0])) with 36%nat.
  rewrite patched_region.
  transitivity (firstn 32 R ++ [0; 0; 0; 0]
                ++ firstn (C - 36) (skipn 36 R) ++ junk).
  - rewrite firstn_app, skipn_app, firstn_firstn, skipn_firstn_comm.
    rewrite !length_firstn.
    replace (Nat.min 32 C) with 32%nat by lia.
    replace (32 - Nat.min C (List.length R))%nat with 0%nat by lia.
    replace (36 - Nat.min C (List.length R))%nat with 0%nat by lia.
    rewrite firstn_O, skipn_O, app_nil_r. reflexivity.
  - rewrite firstn_app, firstn_firstn, length_firstn.
    replace (Nat.min C 32) with 32%nat by lia.
    replace (C - Nat.min 32 (List.length R))%nat
      with (@List.length Z [0%Z; 0%Z; 0%Z; 0%Z] + (C - 36))%nat
      by (simpl List.length; lia).
    rewrite firstn_app_2, <- !app_assoc. reflexivity.
Qed.

(** Reading at file position [s + l] gives the next bytes of [R]. *)
Lemma read_chunk (l : nat) :
  take 4096 (drop (Z.of_nat s + Z.of_nat l) image)
  = firstn (Z.to_nat 4096) (skipn l R).
Proof.
  unfold take, drop. rewrite HR, <- Nat2Z.inj_add, Nat2Z.id, skipn_skipn.
  f_equal. f_equal. lia.
Qed.

(** The read loop, started after [l] bytes with the CRC of these bytes,
    ends with the CRC of the first [lim] bytes of the patched region. *)
Lemma test_crc_read_region :
  forall (n l : nat) (crc : Z) (buf : bytes),
    (l <= lim)%nat -> (l = 0 \/ 36 <= l)%nat ->
    (List.length R - l < n)%nat ->
    test_crc_read super n (Z.of_nat s) (Z.of_nat s + Z.of_nat l) buf
                  (Z.of_nat l) crc
    = crc32 crc (firstn (lim - l) (skipn l P)).
Proof.
  induction n as [|n IH]; intros l crc buf Hl Hl36 Hn; [lia|].
  cbn [test_crc_read]. rewrite read_chunk, Hlimit.
  set (C := Z.to_nat 4096).
  assert (HC : C = 4096%nat) by (unfold C; lia).
  set (data := firstn C (skipn l R)).
  assert (Hdata : List.length data = Nat.min C (List.length R - l)).
  { unfold data. now rewrite length_firstn, length_skipn. }
  assert (Hchunk :
            exists junk,
              (if Z.of_nat l =? 0
               then blit (blit buf 0 data) offsetof_fsid_crc [0; 0; 0; 0]
               else blit buf 0 data)
              = firstn C (skipn l P) ++ junk).
  { assert (Hfront : blit buf 0 data = data ++ drop (blen data) buf)
      by reflexivity.
    rewrite Hfront.
    destruct Hl36 as [->|Hl36].
    - change (Z.of_nat 0 =? 0) with true. cbv iota.
      eexists. unfold data. rewrite !skipn_O. apply patched_chunk. lia.
    - destruct (Z.of_nat l =? 0) eqn:E; [lia|].
      eexists. unfold data. rewrite patched_skipn by lia. reflexivity. }
  destruct Hchunk as [junk Hchunk]. rewrite Hchunk. clear Hchunk.
  assert (HP : List.length (firstn C (skipn l P)) = List.length data).
  { rewrite Hdata, length_firstn, length_skipn, patched_length. reflexivity. }
  unfold blen. destruct (Z.of_nat (List.length data) =? 0) eqn:Hzero.
  - replace (lim - l)%nat with 0%nat by lia. cbn [firstn]. now rewrite crc32_nil.
  - destruct (Z.of_nat l + Z.of_nat (List.length data) >? Z.of_nat lim) eqn:Hover.
    + f_equal. unfold take.
      replace (Z.to_nat (Z.of_nat (List.length data)
                         - (Z.of_nat l + Z.of_nat (List.length data)
                            - Z.of_nat lim)))
        with (lim - l)%nat by lia.
      rewrite firstn_app, firstn_firstn.
      replace (lim - l - List.length (firstn C (skipn l P)))%nat
        with 0%nat by lia.
      replace (Nat.min (lim - l) C) with (lim - l)%nat by lia.
      rewrite firstn_O. apply app_nil_r.
    + replace (Z.of_nat s + Z.of_nat l + Z.of_nat (List.length data))
        with (Z.of_nat s + Z.of_nat (l + List.length data)) by lia.
      replace (Z.of_nat l + Z.of_nat (List.length data))
        with (Z.of_nat (l + List.length data)) by lia.
      rewrite IH by lia.
      rewrite crc32_app. f_equal. unfold take. rewrite Nat2Z.id.
      rewrite firstn_app, firstn_firstn.
      replace (List.length data - List.length (firstn C (skipn l P)))%nat
        with 0%nat by lia.
      rewrite firstn_O, app_nil_r.
      replace (Nat.min (List.length data) C) with (List.length data) by lia.
      replace (lim - l)%nat
        with (List.length data + (lim - (l + List.length data)))%nat by lia.
      rewrite <- (firstn_skipn (List.length data)
                              (firstn (List.length data
                                       + (lim - (l + List.length data)))
                                      (skipn l P))).
      rewrite firstn_firstn, skipn_firstn_comm, skipn_skipn.
      f_equal.
      * f_equal. lia.
      * f_equal; [lia|]. f_equal. lia.
Qed.

(** The region as the checker takes it is the start of the patched rest
    of the file. *)
Lemma crc_region_patched :
  crc_region image (Z.of_nat s) (Z.of_nat s + Z.of_nat lim) = firstn lim P.
Proof.
  unfold crc_region, zero_crc_field, take, drop.
  replace (Z.of_nat s + Z.of_nat lim - Z.of_nat s) with (Z.of_nat lim) by lia.
  rewrite !Nat2Z.id, <- HR.
  rewrite <- (app_nil_r (firstn lim R)), patched_chunk by lia.
  apply app_nil_r.
Qed.

(** The bytes that the mmap path hands to crc32. *)
Lemma mmap_region :
  take (Z.of_nat lim)
       (drop (Z.of_nat s)
             (blit (take (Z.of_nat s + Z.of_nat lim) image)
                   (Z.of_nat s + offsetof_fsid_crc) [0; 0; 0; 0]))
  = firstn lim P.
Proof.
  assert (Himg : (s + lim <= List.length image)%nat).
  { pose proof Hlim as Hlen. rewrite HR, length_skipn in Hlen. lia. }
  unfold blit, take, drop, offsetof_fsid_crc.
  replace (Z.to_nat (Z.of_nat s + 32)) with (s + 32)%nat by lia.
  replace (Z.to_nat (Z.of_nat s + 32 + blen [0; 0; 0; 0]))
    with (36 + s)%nat by (unfold blen; simpl List.length; lia).
  replace (Z.to_nat (Z.of_nat s + Z.of_nat lim)) with (s + lim)%nat by lia.
  rewrite !Nat2Z.id.
  rewrite firstn_firstn, skipn_firstn_comm, <- skipn_skipn, <- HR.
  replace (Nat.min (s + 32) (s + lim)) with (s + 32)%nat by lia.
  rewrite skipn_app, skipn_firstn_comm, length_firstn, <- HR.
  replace (s + 32 - s)%nat with 32%nat by lia.
  replace (s - Nat.min (s + 32) (List.length image))%nat with 0%nat by lia.
  rewrite skipn_O, patched_region.
  rewrite !firstn_app, firstn_firstn, !length_firstn.
  replace (Nat.min lim 32) with 32%nat by lia.
  replace (lim - Nat.min 32 (List.length R))%nat
    with (@List.length Z [0%Z; 0%Z; 0%Z; 0%Z] + (lim - 36))%nat
    by (simpl List.length; lia).
  do 2 f_equal. rewrite firstn_firstn. f_equal. simpl List.length. lia.
Qed.

End CrcRead.

Lemma find_superblock_size (start : Z) (super : polyfs_super) :
  (start, super) = find_superblock -> 0 <= s_size super < 2 ^ 32.
Proof.
  unfold find_superblock.
  repeat match goal with |- context [if ?c then _ else _] => destruct c end;
    intros H; inversion H; apply le32_range.
Qed.

(** C2 (as the code has it): the CRC is taken over the bytes of the file
    from [start] up to offset [super.size], that is [super.size - start]
    bytes, with the four bytes of [fsid.crc] taken as zero; the run ends
    with FSCK_UNCORRECTED "crc error" exactly when this value differs from
    the stored [fsid.crc].  Both the mmap path and the read loop compute
    it. *)
Theorem crc_over_checked_region (start length : Z) (super : polyfs_super)
    (st st' : state) :
  test_super st = Ok (start, length, super) st' ->
  let crc := crc32 crc32_init (crc_region image start (s_size super)) in
  (crc = fsid_crc super -> test_crc super start st' = Ok tt st')
  /\ (crc <> fsid_crc super ->
      test_crc super start st' = Die FSCK_UNCORRECTED "crc error").
Proof.
  intros Hsuper crc.
  apply test_super_ok in Hsuper.
  destruct Hsuper as (_ & Hfind & _ & Hstart & Hv1 & Hsize).
  apply find_superblock_size in Hfind.
  unfold POLYFS_BLOCK_SIZE in Hsize. change (2 ^ 32) with 4294967296 in Hfind.
  assert (Hs : 0 <= start <= 512) by (unfold PAD_SIZE in Hstart; lia).
  set (s := Z.to_nat start). set (lim := Z.to_nat (s_size super - start)).
  assert (Es : start = Z.of_nat s) by (unfold s; lia).
  assert (El : s_size super = Z.of_nat s + Z.of_nat lim) by (unfold s, lim; lia).
  assert (Hlimit : to_uint (s_size super - Z.of_nat s) = Z.of_nat lim).
  { unfold to_uint. change (2 ^ 32) with 4294967296.
    rewrite Z.mod_small by lia. lia. }
  assert (Hlim : (36 <= lim <= List.length (skipn s image))%nat).
  { rewrite length_skipn. unfold blen in Hsize. lia. }
  assert (Hcrc : (if mmap_ok then
                    crc32 crc32_init
                          (take (to_uint (s_size super - start))
                                (drop start
                                      (blit (take (s_size super) image)
                                            (start + offsetof_fsid_crc)
                                            [0; 0; 0; 0])))
                  else
                    test_crc_read super (S (List.length image)) start start
                                  (zeros 4096) 0 crc32_init) = crc).
  { unfold crc. clearbody s lim. subst start.
    rewrite Hlimit, El.
    rewrite (crc_region_patched s lim _ eq_refl) by assumption.
    destruct mmap_ok.
    - rewrite (mmap_region s lim _ eq_refl) by assumption. reflexivity.
    - pose proof (test_crc_read_region super s lim _ eq_refl Hlimit Hlim
                    (S (List.length image)) 0 crc32_init (zeros 4096)) as Hread.
      change (Z.of_nat 0) with 0 in Hread.
      rewrite Z.add_0_r in Hread. rewrite Hread by (rewrite ?length_skipn; lia).
      rewrite Nat.sub_0_r, skipn_O. reflexivity. }
  unfold test_crc. rewrite Hv1. cbn [negb]. rewrite Hcrc. run_monad.
  split; intros H.
  - rewrite H, Z.eqb_refl. reflexivity.
  - destruct (crc =? fsid_crc super) eqn:E; [lia|reflexivity].
Qed.

(** ** Stored blocks *)

(** Without a compression flag [uncompress_block] tests the length and
    returns it; the state, and with it the output buffer, is left as it
    was, and the stored bytes [src] are not looked at. *)
Lemma uncompress_block_stored (super : polyfs_super) (src : bytes) (len : Z)
    (st : state) :
  has_flag (s_flags super) POLYFS_FLAG_LZO_COMPRESSION = false ->
  has_flag (s_flags super) POLYFS_FLAG_ZLIB_COMPRESSION = false ->
  uncompress_block super src len st
  = if len >? POLYFS_BLOCK_SIZE
    then Die FSCK_UNCORRECTED "data block too large"
    else Ok len st.
Proof.
  intros Hlzo Hzlib. unfold uncompress_block. rewrite Hlzo, Hzlib.
  run_monad. destruct (len >? POLYFS_BLOCK_SIZE); reflexivity.
Qed.

(** ** Fuel

    More fuel never changes a result that was reached. *)

Lemma refines_refl {A} (r : result A) : refines r r.
Proof. now right. Qed.

Lemma bind_refines {A B} (m m' : M A) (k k' : A -> M B) (st : state) :
  refines (m st) (m' st) ->
  (forall (a : A) (s : state), refines (k a s) (k' a s)) ->
  refines (bind m k st) (bind m' k' st).
Proof.
  unfold bind. intros [H|H] Hk; rewrite H; [now left|].
  destruct (m' st); auto using refines_refl.
Qed.

Ltac refines_body :=
  repeat first
         [ apply refines_refl
         | apply bind_refines; [try apply refines_refl|intros ? ?] ].

Lemma do_uncompress_loop_mono (super : polyfs_super) (path : bytes) :
  forall (n n' : nat) (offset size curr : Z) (st : state),
    (n <= n')%nat ->
    refines (do_uncompress_loop super n path offset size curr st)
            (do_uncompress_loop super n' path offset size curr st).
Proof.
  induction n as [|n IH]; intros n' offset size curr st Hn; [now left|].
  destruct n' as [|n']; [lia|].
  cbn [do_uncompress_loop]. refines_body.
  destruct (_ =? 0); [apply refines_refl|apply IH; lia].
Qed.

Lemma do_directory_loop_mono (expand expand' : bytes -> polyfs_inode -> M unit)
    (newpath : bytes) :
  (forall (p : bytes) (i : polyfs_inode) (st : state),
      refines (expand p i st) (expand' p i st)) ->
  forall (n n' : nat) (count offset : Z) (st : state),
    (n <= n')%nat ->
    refines (do_directory_loop expand n newpath count offset st)
            (do_directory_loop expand' n' newpath count offset st).
Proof.
  intros Hexpand. induction n as [|n IH]; intros n' count offset st Hn.
  - destruct n'; cbn [do_directory_loop]; destruct (count >? 0);
      try apply refines_refl; now left.
  - destruct n' as [|n']; [lia|].
    cbn [do_directory_loop]. destruct (count >? 0); [|apply refines_refl].
    refines_body; [apply Hexpand|].
    refines_body. apply IH. lia.
Qed.

Lemma expand_fs_mono (super : polyfs_super) :
  forall (fuel fuel' : nat) (path : bytes) (i : polyfs_inode) (st : state),
    (fuel <= fuel')%nat ->
    refines (expand_fs super fuel path i st) (expand_fs super fuel' path i st).
Proof.
  induction fuel as [|fuel IH]; intros fuel' path i st Hfuel; [now left|].
  destruct fuel' as [|fuel']; [lia|].
  cbn [expand_fs].
  destruct (S_ISDIR (i_mode i)); [|destruct (S_ISREG (i_mode i))].
  - unfold do_directory. refines_body.
    apply do_directory_loop_mono; [|lia].
    intros ? ? ?. apply IH. lia.
  - unfold do_file. refines_body.
    unfold when. destruct (negb _); [|apply refines_refl].
    unfold do_uncompress. apply do_uncompress_loop_mono. lia.
  - apply refines_refl.
Qed.

(** A run that ends, accepted or not, ends the same way with any larger
    fuel: the status of an image does not depend on the bound. *)
Lemma polyfsck_fuel (fuel fuel' : nat) :
  (fuel <= fuel')%nat -> polyfsck fuel <> Timeout ->
  polyfsck fuel' = polyfsck fuel.
Proof.
  intros Hfuel Hend.
  assert (H : refines (polyfsck fuel) (polyfsck fuel')).
  { unfold polyfsck. refines_body.
    destruct a as [[start length] super]. refines_body.
    unfold test_fs. refines_body.
    apply expand_fs_mono. exact Hfuel. }
  destruct H as [H|H]; congruence.
Qed.

Lemma bind_ends {A B} (m : M A) (k : A -> M B) (st : state) :
  m st <> Timeout ->
  (forall (a : A) (s : state), m st = Ok a s -> k a s <> Timeout) ->
  bind m k st <> Timeout.
Proof.
  unfold bind. intros Hm Hk. destruct (m st); [eauto|discriminate|congruence].
Qed.

Lemma uncompress_block_ends (super : polyfs_super) (src : bytes) (len : Z)
    (st : state) :
  uncompress_block super src len st <> Timeout.
Proof.
  unfold uncompress_block. run_monad.
  repeat match goal with
         | |- context [let '(_, _) := ?p in _] => destruct p
         | |- context [if ?c then _ else _] => destruct c
         end; discriminate.
Qed.

Lemma sys_ends (c : syscall) (fmt : string) (st : state) :
  sys c fmt st <> Timeout.
Proof. unfold sys. destruct (sys_fails _ _); discriminate. Qed.

(** The loop of [do_uncompress] ends within one turn per block of the
    remaining size. *)
Lemma do_uncompress_loop_ends (super : polyfs_super) (path : bytes) :
  forall (n : nat) (offset size curr : Z) (st : state),
    0 <= size < POLYFS_BLOCK_SIZE * Z.of_nat n -> size < 2 ^ 64 ->
    do_uncompress_loop super n path offset size curr st <> Timeout.
Proof.
  unfold POLYFS_BLOCK_SIZE. change (2 ^ 64) with 18446744073709551616.
  induction n as [|n IH]; intros offset size curr st Hsize Hlong; [lia|].
  rewrite do_uncompress_loop_turn.
  destruct (do_uncompress_block super offset size curr st)
    as [[next out] st1| |] eqn:Hblock; [|discriminate|].
  - apply bind_ends.
    + unfold when, POLYFS_BLOCK_SIZE.
      destruct (size >=? 4096); destruct (negb _); discriminate.
    + intros [] s Hcheck. apply bind_ends.
      * unfold when. destruct opt_extract; [|discriminate].
        apply bind_ends; [discriminate|intros; apply sys_ends].
      * intros [] s' _.
        assert (Hout : out = Z.min 4096 size).
        { revert Hcheck. unfold when, die, ret, POLYFS_BLOCK_SIZE.
          destruct (size >=? 4096) eqn:E.
          - destruct (out =? 4096) eqn:E'; cbn [negb]; [lia|discriminate].
          - destruct (out =? size) eqn:E'; cbn [negb]; [lia|discriminate]. }
        assert (Hnext : to_ulong (size - out) = size - out).
        { unfold to_ulong. change (2 ^ 64) with 18446744073709551616.
          apply Z.mod_small. lia. }
        rewrite Hnext.
        destruct (size - out =? 0) eqn:E; [discriminate|].
        apply IH; lia.
  - exfalso. revert Hblock. unfold do_uncompress_block, romfs_read. run_monad.
    destruct (_ >? _); cbv beta iota;
      (destruct (_ =? _); cbv beta iota; [discriminate|]);
      match goal with
      | |- context [uncompress_block ?a ?b ?c ?d] =>
        pose proof (uncompress_block_ends a b c d);
          destruct (uncompress_block a b c d)
      end; try discriminate; congruence.
Qed.

End Properties.

(** * The properties on the test images *)

(** The image with one empty root directory is accepted. *)
Example minimal_image_accepted :
  exit_status (polyfsck (hdr := sample_header) (libs := no_libraries)
                        (run := check_only minimal_image) 2)
  = Some FSCK_OK.
Proof. vm_compute. reflexivity. Qed.

(** An accepted image with file data whose [start_dir] lies inside the
    superblock: the test of the lower bound reads [start_data]. *)
Example low_directory_offset_accepted :
  exists st : state,
    polyfsck (hdr := sample_header) (libs := no_libraries)
             (run := check_only low_directory_image) 3 = Ok tt st
    /\ counters st = (4, 108, 108, 113).
Proof. eexists. split; vm_compute; reflexivity. Qed.

Lemma unsupported_features_exit_error_witness :
  exit_status (polyfsck (hdr := sample_header) (libs := no_libraries)
                        (run := check_only unknown_flag_image) 0) = Some 8.
Proof.
  apply (unsupported_features_exit_error
           (hdr := sample_header) (libs := no_libraries)
           (run := check_only unknown_flag_image) 0).
  - vm_compute. discriminate.
  - vm_compute. reflexivity.
  - vm_compute. discriminate.
Defined.

Lemma root_not_directory_witness :
  polyfsck (hdr := sample_header) (libs := no_libraries)
           (run := check_only file_root_image) 0
  = Die FSCK_UNCORRECTED "root inode is not directory".
Proof.
  apply (root_not_directory
           (hdr := sample_header) (libs := no_libraries)
           (run := check_only file_root_image)
           0 4096 (snd (find_superblock (hdr := sample_header)
                                        (run := check_only file_root_image)))
           initial_state initial_state).
  - vm_compute. reflexivity.
  - vm_compute. reflexivity.
  - vm_compute. reflexivity.
Defined.

Lemma block_length_enforced_witness :
  do_uncompress_loop (hdr := sample_header) (libs := no_libraries)
                     (run := check_only six_byte_block)
                     plain_super 1 [] 0 5 4 initial_state
  = Die FSCK_UNCORRECTED "non-size (%ld vs %ld) bytes".
Proof.
  refine (proj1 (proj2 (block_length_enforced
                          (hdr := sample_header) (libs := no_libraries)
                          (run := check_only six_byte_block)
                          plain_super 0 [] 0 5 4 10 6 initial_state
                          (romfs_load (run := check_only six_byte_block) 4
                             (set_end_data 10
                                (romfs_load (run := check_only six_byte_block)
                                            0 initial_state)))
                          _)) _ _).
  - vm_compute. reflexivity.
  - vm_compute. reflexivity.
  - vm_compute. discriminate.
Defined.

Lemma hole_is_zero_filled_witness :
  exists st1 : state,
    do_uncompress_block (hdr := sample_header) (libs := no_libraries)
                        (run := check_only hole_block)
                        plain_super 0 5 4 initial_state = Ok (4, 5) st1
    /\ take 5 (outbuffer st1) = [0; 0; 0; 0; 0].
Proof.
  destruct (hole_is_zero_filled
              (hdr := sample_header) (libs := no_libraries)
              (run := check_only hole_block)
              plain_super 0 [] 0 5 4 initial_state)
    as (st1 & Hblock & Hzero & _).
  - vm_compute. reflexivity.
  - exists st1. split; [exact Hblock|exact Hzero].
Defined.

Lemma symlink_checks_witness :
  do_symlink (hdr := sample_header) (libs := no_libraries)
             (run := check_only link_block)
             plain_super [47; 108] link_inode initial_state
  = Die FSCK_UNCORRECTED "size error in symlink: %s".
Proof.
  refine (proj2 (proj2 (symlink_checks
                          (hdr := sample_header) (libs := no_libraries)
                          (run := check_only link_block)
                          plain_super [47; 108] link_inode initial_state))
                2
                (romfs_load (run := check_only link_block) 8
                   (set_end_data 10
                      (set_start_data 4
                         (romfs_load (run := check_only link_block)
                                     4 initial_state))))
                _ _ _).
  - vm_compute. split; [discriminate|reflexivity].
  - vm_compute. reflexivity.
  - vm_compute. discriminate.
Defined.

Lemma directory_size_not_checked_witness :
  do_directory_loop (run := check_only one_record_directory)
                    (expand_fs (hdr := sample_header) (libs := no_libraries)
                               (run := check_only one_record_directory)
                               plain_super 2)
                    1 [47] 13 4 (set_start_dir 4 initial_state)
  = do_directory_loop (run := check_only one_record_directory)
                    (expand_fs (hdr := sample_header) (libs := no_libraries)
                               (run := check_only one_record_directory)
                               plain_super 2)
                    1 [47] 16 4 (set_start_dir 4 initial_state).
Proof.
  refine (proj2 (directory_size_not_checked
                   (run := check_only one_record_directory)
                   _ 0 [47] 13 4 (set_start_dir 4 initial_state)) _).
  vm_compute. split; reflexivity.
Defined.

Lemma root_offset_two_values_witness :
  test_fs (hdr := sample_header) (libs := no_libraries)
          (run := check_only far_root_image)
          (snd (find_superblock (hdr := sample_header)
                                (run := check_only far_root_image)))
          2 0 initial_state
  = (expand_fs (hdr := sample_header) (libs := no_libraries)
               (run := check_only far_root_image)
               (snd (find_superblock (hdr := sample_header)
                                     (run := check_only far_root_image)))
               2 [47]
               (polyfs_iget
                  (s_root (snd (find_superblock
                                  (hdr := sample_header)
                                  (run := check_only far_root_image))))) ;;
     test_fs_layout (hdr := sample_header)
                    (snd (find_superblock (hdr := sample_header)
                                          (run := check_only far_root_image)))
                    0) initial_state.
Proof.
  refine (proj2 (root_offset_two_values
                   (hdr := sample_header) (libs := no_libraries)
                   (run := check_only far_root_image)
                   _ 2 0 initial_state _ _) _).
  - vm_compute. reflexivity.
  - vm_compute. reflexivity.
  - right. vm_compute. reflexivity.
Defined.

(** C3, as stated, fails: this image starts at offset 0, does not set
    SHIFTED_ROOT_OFFSET and has its root payload at offset 588, which is
    not [sizeof(super) + start]; the checker accepts it. *)
Lemma root_offset_counterexample :
  let super := snd (find_superblock (hdr := sample_header)
                                    (run := check_only far_root_image)) in
  let start := fst (find_superblock (hdr := sample_header)
                                    (run := check_only far_root_image)) in
  has_flag (s_flags super)
           (POLYFS_FLAG_SHIFTED_ROOT_OFFSET (Header := sample_header)) = false
  /\ to_ulong (Z.shiftl (i_offset (polyfs_iget (s_root super))) 2)
     <> sizeof_super + start
  /\ exit_status (polyfsck (hdr := sample_header) (libs := no_libraries)
                           (run := check_only far_root_image) 2)
     = Some FSCK_OK.
Proof.
  vm_compute. repeat split; discriminate.
Qed.

Lemma layout_after_walk_witness :
  exists st : state,
    polyfsck (hdr := sample_header) (libs := no_libraries)
             (run := check_only one_file_image) 3 = Ok tt st
    /\ end_data st <= 4096
    /\ (start_data st <> ULONG_MAX ->
        76 <= start_data st
        /\ start_dir st < end_dir st /\ end_dir st = start_data st).
Proof.
  destruct (polyfsck (hdr := sample_header) (libs := no_libraries)
                     (run := check_only one_file_image) 3)
    as [[] st| |] eqn:E;
    try (vm_compute in E; discriminate).
  exists st. split; [reflexivity|].
  exact (proj1 (layout_after_walk
                  (hdr := sample_header) (libs := no_libraries)
                  (run := check_only one_file_image)) 3%nat st E).
Defined.

(** C1, as stated, fails: the image with one empty root directory is
    accepted, and at the end of the walk [start_dir] is 76 and [end_dir]
    is 0. *)
Lemma layout_chain_counterexample :
  exists st : state,
    polyfsck (hdr := sample_header) (libs := no_libraries)
             (run := check_only minimal_image) 2 = Ok tt st
    /\ ~ layout_chain 0 plain_super st.
Proof.
  eexists. split.
  - vm_compute. reflexivity.
  - intros (_ & H & _). vm_compute in H. apply H. reflexivity.
Qed.

Lemma crc_over_checked_region_witness :
  test_crc (hdr := sample_header) (run := check_by_read padded_image)
           (snd (find_superblock (hdr := sample_header)
                                 (run := check_by_read padded_image)))
           512 initial_state
  = Ok tt initial_state.
Proof.
  refine (proj1 (crc_over_checked_region
                   (hdr := sample_header)
                   (run := check_by_read padded_image)
                   512 4608 _ initial_state initial_state _) _).
  - vm_compute. reflexivity.
  - vm_compute. reflexivity.
Defined.

(** C2, as stated, fails: this file holds a filesystem of size 4096 behind
    a 512-byte pad and goes on for 512 more bytes.  The CRC of the 4096
    bytes from offset 512, with the CRC field zeroed, is not the stored
    one, yet the CRC test passes, with mmap and with the read loop, and the
    image is accepted. *)
Lemma crc_region_counterexample :
  let super := snd (find_superblock (hdr := sample_header)
                                    (run := check_only padded_image)) in
  fst (find_superblock (hdr := sample_header)
                       (run := check_only padded_image)) = 512
  /\ s_size super = 4096
  /\ crc32 crc32_init (crc_region_described padded_image 512 (s_size super))
     <> fsid_crc super
  /\ test_crc (hdr := sample_header) (run := check_only padded_image)
              super 512 initial_state = Ok tt initial_state
  /\ test_crc (hdr := sample_header) (run := check_by_read padded_image)
              super 512 initial_state = Ok tt initial_state
  /\ exit_status (polyfsck (hdr := sample_header) (libs := no_libraries)
                           (run := check_only padded_image) 2)
     = Some FSCK_OK.
Proof.
  vm_compute. repeat split; discriminate.
Qed.

(** C4 fails on the code: [one_file_image] stores the regular file [a] as
    the single byte 65 at offset 96, without compression.  Extracting it
    into [out] is accepted, and the one write to [out/a] is the byte 0, the
    content of the output buffer, which the stored byte never reached. *)
Theorem stored_block_not_written :
  nth 96 one_file_image 0 = 65
  /\ exists st : state,
      polyfsck (hdr := sample_header) (libs := no_libraries)
               (run := extract_to_out one_file_image) 3 = Ok tt st
      /\ host st
         = [sys_mkdir [111; 117; 116] 16877;
            sys_utime [111; 117; 116];
            sys_open [111; 117; 116; 47; 97] 33188;
            sys_write [111; 117; 116; 47; 97] [0];
            sys_close [111; 117; 116; 47; 97];
            sys_utime [111; 117; 116; 47; 97]].
Proof.
  split; [reflexivity|].
  eexists. split; vm_compute; reflexivity.
Qed.

(** * Further properties *)

Section Further.

Context {hdr : Header} {libs : Libraries} {run : Run}.

(** ** The read window *)

Lemma blen_take (n : Z) (l : bytes) : 0 <= n -> blen (take n l) = Z.min n (blen l).
Proof. intros H. unfold blen, take. rewrite length_firstn. lia. Qed.

Lemma blen_drop (n : Z) (l : bytes) :
  0 <= n -> blen (drop n l) = Z.max 0 (blen l - n).
Proof. intros H. unfold blen, drop. rewrite length_skipn. lia. Qed.

Lemma take_take (a b : Z) (l : bytes) :
  take a (take b l) = take (Z.min a b) l.
Proof.
  unfold take. rewrite firstn_firstn. f_equal. lia.
Qed.

Lemma drop_drop (a b : Z) (l : bytes) :
  0 <= a -> 0 <= b -> drop a (drop b l) = drop (a + b) l.
Proof.
  intros Ha Hb. unfold drop. rewrite skipn_skipn. f_equal. lia.
Qed.

Lemma drop_take (a b : Z) (l : bytes) :
  0 <= a -> drop a (take b l) = take (b - a) (drop a l).
Proof.
  intros Ha. unfold drop, take. rewrite skipn_firstn_comm. f_equal. lia.
Qed.

Lemma blit_front (dst data : bytes) :
  blit dst 0 data = data ++ drop (blen data) dst.
Proof. unfold blit. rewrite Z.add_0_l. reflexivity. Qed.

Lemma take_blen_app (data rest : bytes) :
  take (blen data) (data ++ rest) = data.
Proof.
  unfold take, blen.
  rewrite Nat2Z.id, firstn_app, Nat.sub_diag, firstn_O, app_nil_r.
  apply firstn_all.
Qed.

Lemma blen_blit_front (dst data : bytes) :
  blen data <= blen dst -> blen (blit dst 0 data) = blen dst.
Proof.
  intros H. rewrite blit_front. unfold blen, drop in *.
  rewrite length_app, length_skipn. lia.
Qed.

Lemma window_ok_initial : window_ok initial_state.
Proof.
  split; [|left; reflexivity].
  cbn [initial_state read_buffer]. unfold blen, zeros.
  rewrite repeat_length, Z2Nat.id; [reflexivity|].
  unfold ROMBUFFERSIZE. discriminate.
Qed.

(** A request keeps the window in step with the file. *)
Lemma romfs_load_window_ok (offset : Z) (st : state) :
  window_ok st -> window_ok (romfs_load offset st).
Proof.
  intros [Hlen Hcache]. unfold romfs_load.
  destruct (_ =? read_buffer_block st) eqn:E; [split; assumption|].
  generalize (to_uint (Z.shiftr offset ROMBUFFER_BITS)). intros block.
  unfold window_ok.
  cbn [read_buffer read_buffer_block set_read_buffer].
  generalize (to_uint (Z.shiftl block ROMBUFFER_BITS)). intros pos.
  cbv zeta.
  assert (Hdata : blen (take (ROMBUFFERSIZE * 2) (drop pos image))
                  <= ROMBUFFERSIZE * 2).
  { rewrite blen_take by (unfold ROMBUFFERSIZE; discriminate). lia. }
  revert Hdata.
  generalize (take (ROMBUFFERSIZE * 2) (drop pos image)). intros data Hdata.
  split.
  - rewrite blen_blit_front; [assumption|]. rewrite Hlen. assumption.
  - right. rewrite blit_front. apply take_blen_app.
Qed.

Lemma start_dir_romfs_load (o : Z) (s : state) :
  start_dir (romfs_load o s) = start_dir s.
Proof. unfold romfs_load. destruct (_ =? _); reflexivity. Qed.

Lemma end_dir_romfs_load (o : Z) (s : state) :
  end_dir (romfs_load o s) = end_dir s.
Proof. unfold romfs_load. destruct (_ =? _); reflexivity. Qed.

Lemma start_data_romfs_load (o : Z) (s : state) :
  start_data (romfs_load o s) = start_data s.
Proof. unfold romfs_load. destruct (_ =? _); reflexivity. Qed.

Lemma end_data_romfs_load (o : Z) (s : state) :
  end_data (romfs_load o s) = end_data s.
Proof. unfold romfs_load. destruct (_ =? _); reflexivity. Qed.

Lemma host_romfs_load (o : Z) (s : state) :
  host (romfs_load o s) = host s.
Proof. unfold romfs_load. destruct (_ =? _); reflexivity. Qed.

Lemma offset_split (offset : Z) :
  0 <= offset < 2 ^ 32 ->
  let block := to_uint (Z.shiftr offset ROMBUFFER_BITS) in
  to_uint (Z.shiftl block ROMBUFFER_BITS) + Z.land offset ROMBUFFERMASK = offset
  /\ 0 <= Z.land offset ROMBUFFERMASK < ROMBUFFERSIZE
  /\ 0 <= to_uint (Z.shiftl block ROMBUFFER_BITS).
Proof.
  intros H. change (2 ^ 32) with 4294967296 in H.
  unfold to_uint, ROMBUFFER_BITS. cbv zeta.
  change ROMBUFFERMASK with (Z.ones 13). change ROMBUFFERSIZE with 8192.
  rewrite Z.land_ones, Z.shiftr_div_pow2 by lia.
  change (2 ^ 13) with 8192. change (2 ^ 32) with 4294967296.
  pose proof (Z.div_mod offset 8192 ltac:(lia)).
  pose proof (Z.mod_pos_bound offset 8192 ltac:(lia)).
  assert (0 <= offset / 8192 < 524288)
    by (split; [apply Z.div_pos; lia|apply Z.div_lt_upper_bound; lia]).
  rewrite (Z.mod_small (offset / 8192)) by lia.
  rewrite Z.shiftl_mul_pow2 by lia. change (2 ^ 13) with 8192.
  rewrite Z.mod_small by lia. lia.
Qed.

Lemma outbuffer_romfs_load (o : Z) (s : state) :
  outbuffer (romfs_load o s) = outbuffer s.
Proof. unfold romfs_load. destruct (_ =? _); reflexivity. Qed.

(** What the window holds behind the pointer that a request returns. *)
Lemma window_read (offset k : Z) (st : state) :
  window_ok st ->
  0 <= offset < 2 ^ 32 -> 0 <= k <= ROMBUFFERSIZE ->
  offset + k <= blen image ->
  take k (drop (Z.land offset ROMBUFFERMASK)
               (read_buffer (romfs_load offset st)))
  = take k (drop offset image).
Proof.
  intros Hok Hoff Hk Hfile.
  pose proof (romfs_load_window_ok offset st Hok) as [Hlen Hcache].
  destruct (offset_split offset Hoff) as (Hsplit & Hlow & Hpos).
  cbv zeta in Hsplit, Hpos.
  assert (Hblock : read_buffer_block (romfs_load offset st)
                   = to_uint (Z.shiftr offset ROMBUFFER_BITS)).
  { unfold romfs_load. destruct (_ =? read_buffer_block st) eqn:E;
      [lia|reflexivity]. }
  destruct Hcache as [Hnone|Hcache].
  { exfalso. rewrite Hblock in Hnone. unfold to_uint, ULONG_MAX in Hnone.
    pose proof (Z.mod_pos_bound (Z.shiftr offset ROMBUFFER_BITS) (2 ^ 32)
                  ltac:(reflexivity)).
    change (2 ^ 32) with 4294967296 in *.
    change (2 ^ 64 - 1) with 18446744073709551615 in Hnone. lia. }
  cbv zeta in Hcache. rewrite Hblock in Hcache.
  set (pos := to_uint (Z.shiftl (to_uint (Z.shiftr offset ROMBUFFER_BITS))
                                ROMBUFFER_BITS)) in *.
  set (r := Z.land offset ROMBUFFERMASK) in *.
  set (buf := read_buffer (romfs_load offset st)) in *.
  set (data := take (ROMBUFFERSIZE * 2) (drop pos image)) in *.
  change ROMBUFFERSIZE with 8192 in *.
  assert (Hdata : blen data = Z.min 16384 (blen image - pos)).
  { unfold data. rewrite blen_take, blen_drop by lia. lia. }
  transitivity (take k (drop r data)).
  - rewrite <- Hcache. rewrite drop_take by lia.
    rewrite take_take. f_equal. lia.
  - unfold data. rewrite drop_take, take_take, drop_drop by lia.
    f_equal; [lia|f_equal; lia].
Qed.

(** The blocked access gives the bytes of the file: for an offset below
    4 GiB, the first [k <= 8192] bytes behind the returned pointer are the
    [k] bytes of the image at [offset], as long as they lie inside the
    file. *)
Theorem romfs_read_image (offset k : Z) (st : state) :
  window_ok st ->
  0 <= offset < 2 ^ 32 -> 0 <= k <= ROMBUFFERSIZE ->
  offset + k <= blen image ->
  exists (p : bytes) (st' : state),
    romfs_read offset st = Ok p st'
    /\ take k p = take k (drop offset image)
    /\ window_ok st'
    /\ counters st' = counters st /\ host st' = host st
    /\ outbuffer st' = outbuffer st.
Proof.
  intros Hok Hoff Hk Hfile.
  exists (drop (Z.land offset ROMBUFFERMASK)
               (read_buffer (romfs_load offset st))), (romfs_load offset st).
  split; [reflexivity|].
  split; [apply window_read; assumption|].
  split; [apply romfs_load_window_ok; assumption|].
  split; [|split].
  - unfold counters.
    rewrite start_dir_romfs_load, end_dir_romfs_load,
      start_data_romfs_load, end_data_romfs_load.
    reflexivity.
  - apply host_romfs_load.
  - apply outbuffer_romfs_load.
Qed.

(** ** Weakest preconditions *)

Lemma wp_bind {A B} (m : M A) (k : A -> M B) (Q : B -> state -> Prop)
    (st : state) :
  wp m (fun a s => wp (k a) Q s) st -> wp (bind m k) Q st.
Proof. unfold wp, bind. destruct (m st); auto. Qed.

Lemma wp_ret {A} (a : A) (Q : A -> state -> Prop) (st : state) :
  Q a st -> wp (ret a) Q st.
Proof. auto. Qed.

Lemma wp_get {A} (f : state -> A) (Q : A -> state -> Prop) (st : state) :
  Q (f st) st -> wp (get f) Q st.
Proof. auto. Qed.

Lemma wp_mono {A} (m : M A) (Q Q' : A -> state -> Prop) (st : state) :
  wp m Q st -> (forall a s, Q a s -> Q' a s) -> wp m Q' st.
Proof. unfold wp. destruct (m st); auto. Qed.

Lemma wp_ok {A} (m : M A) (Q : A -> state -> Prop) (st st' : state) (a : A) :
  wp m Q st -> m st = Ok a st' -> Q a st'.
Proof. unfold wp. intros H E. now rewrite E in H. Qed.

Lemma extends_refl (p : bytes) : extends p p.
Proof. exists []. now rewrite app_nil_r. Qed.

Lemma extends_app (p q r : bytes) : extends p q -> extends p (q ++ r).
Proof. intros [t ->]. exists (t ++ r). now rewrite app_assoc. Qed.

(** ** A frame rule for the walk

    A property of the state that the elementary steps keep is kept by every
    handler and by the whole walk.  The steps are: a request to the read
    window, a write to the output buffer, a counter moved outwards, and,
    only when extracting, a system call on a path below [path0]. *)

Section Frame.

Variable Inv : state -> Prop.
Variable path0 : bytes.
Variable super : polyfs_super.

(** [good] is a property of the inodes the walk meets; every inode read from
    the image has it. *)
Variable good : polyfs_inode -> Prop.
Hypothesis good_iget : forall p, good (polyfs_iget p).

Hypothesis Inv_load : forall o s, Inv s -> Inv (romfs_load o s).
Hypothesis Inv_outbuffer : forall b s, Inv s -> Inv (set_outbuffer b s).
Hypothesis Inv_start_dir :
  forall v s, Inv s -> v < start_dir s -> Inv (set_start_dir v s).
Hypothesis Inv_end_dir :
  forall v s, Inv s -> end_dir s < v -> Inv (set_end_dir v s).
Hypothesis Inv_start_data :
  forall v s, Inv s -> v < start_data s -> Inv (set_start_data v s).
Hypothesis Inv_end_data :
  forall v s, Inv s -> end_data s < v -> Inv (set_end_data v s).
Hypothesis Inv_log :
  forall c s, Inv s -> opt_extract = true -> extends path0 (syscall_path c) ->
              Inv (log_syscall c s).

Lemma frame_modify (f : state -> state) (Q : unit -> state -> Prop)
    (s : state) :
  Inv (f s) -> (forall s', Inv s' -> Q tt s') -> wp (modify f) Q s.
Proof. unfold wp, modify. auto. Qed.

Lemma frame_romfs_read (o : Z) (Q : bytes -> state -> Prop) (s : state) :
  Inv s -> (forall p s', Inv s' -> Q p s') -> wp (romfs_read o) Q s.
Proof. unfold wp, romfs_read. auto. Qed.

Lemma frame_sys (c : syscall) (fmt : string) (Q : unit -> state -> Prop)
    (s : state) :
  Inv s -> opt_extract = true -> extends path0 (syscall_path c) ->
  (forall s', Inv s' -> Q tt s') -> wp (sys c fmt) Q s.
Proof. unfold wp, sys. destruct (sys_fails _ _); auto. Qed.

Ltac frame_side :=
  first [ assumption
        | apply Inv_outbuffer; assumption
        | apply Inv_start_dir; [assumption|lia]
        | apply Inv_end_dir; [assumption|lia]
        | apply Inv_start_data; [assumption|lia]
        | apply Inv_end_data; [assumption|lia]
        | apply Inv_log; [assumption|assumption|simpl; assumption] ].

Ltac frame_step :=
  lazymatch goal with
  | |- wp (bind _ _) _ _ => apply wp_bind
  | |- wp (ret _) _ _ => apply wp_ret
  | |- wp (get _) _ _ => apply wp_get
  | |- wp (die _ _) _ _ => exact Logic.I
  | |- wp timeout _ _ => exact Logic.I
  | |- wp (when ?b _) _ _ => unfold when at 1; case_eq b; intros ?
  | |- wp (if ?b then _ else _) _ _ => case_eq b; intros ?
  | |- wp (let '(_, _) := ?p in _) _ _ => destruct p
  | |- wp (modify _) _ _ =>
    apply frame_modify; [frame_side|intros ? ?]
  | |- wp (romfs_read _) _ _ =>
    apply frame_romfs_read; [assumption|intros ? ? ?]
  | |- wp (sys _ _) _ _ =>
    apply frame_sys; [assumption|assumption|simpl; assumption|intros ? ?]
  end.

Ltac frame := repeat frame_step; try assumption.

Lemma frame_uncompress_block (src : bytes) (len : Z) (s : state) :
  Inv s -> wp (uncompress_block super src len) (fun _ s' => Inv s') s.
Proof. intros H. unfold uncompress_block. frame. Qed.

Lemma frame_change_file_status (path : bytes) (i : polyfs_inode) (s : state) :
  Inv s -> opt_extract = true -> extends path0 path ->
  wp (change_file_status path i) (fun _ s' => Inv s') s.
Proof. intros H He Hp. unfold change_file_status. frame. Qed.

Ltac frame_call :=
  lazymatch goal with
  | |- wp (uncompress_block _ _ _) _ _ =>
    eapply wp_mono;
    [apply frame_uncompress_block; assumption|cbv beta; intros ? ? ?]
  | |- wp (change_file_status _ _) _ _ =>
    eapply wp_mono;
    [apply frame_change_file_status; assumption|cbv beta; intros ? ? ?]
  | _ => frame_step
  end.

Ltac frame_calls := repeat frame_call; try assumption.

Lemma frame_do_uncompress_loop (path : bytes) :
  extends path0 path ->
  forall (n : nat) (offset size curr : Z) (s : state),
    Inv s ->
    wp (do_uncompress_loop super n path offset size curr)
       (fun _ s' => Inv s') s.
Proof.
  intros Hp. induction n as [|n IH]; intros offset size curr s H;
    cbn [do_uncompress_loop]; [exact Logic.I|].
  frame_calls; apply IH; assumption.
Qed.

(** What follows the expansion of a block in one turn of that loop. *)
Lemma frame_do_uncompress_rest (path : bytes) (n : nat)
    (offset size out next : Z) (s : state) :
  extends path0 path -> Inv s ->
  wp ((if size >=? POLYFS_BLOCK_SIZE then
         when (negb (out =? POLYFS_BLOCK_SIZE))
              (die FSCK_UNCORRECTED "non-block (%ld) bytes")
       else
         when (negb (out =? size))
              (die FSCK_UNCORRECTED "non-size (%ld vs %ld) bytes")) ;;
      when opt_extract
           (ob <- get outbuffer ;;
            sys (sys_write path (take out ob)) "write failed: %s") ;;
      if to_ulong (size - out) =? 0 then ret tt
      else do_uncompress_loop super n path (to_ulong (offset + 4))
                              (to_ulong (size - out)) next)
     (fun _ s' => Inv s') s.
Proof.
  intros Hp H. frame_calls; apply frame_do_uncompress_loop; assumption.
Qed.

Lemma frame_do_file (n : nat) (path : bytes) (i : polyfs_inode) (s : state) :
  Inv s -> extends path0 path ->
  wp (do_file super n path i) (fun _ s' => Inv s') s.
Proof.
  intros H Hp. unfold do_file, do_uncompress. frame_calls;
    try (eapply wp_mono;
         [apply frame_do_uncompress_loop; assumption|cbv beta; intros ? ? ?];
         frame_calls).
Qed.

Lemma frame_do_symlink (path : bytes) (i : polyfs_inode) (s : state) :
  Inv s -> extends path0 path ->
  wp (do_symlink super path i) (fun _ s' => Inv s') s.
Proof. intros H Hp. unfold do_symlink. frame_calls. Qed.

Lemma frame_do_special_inode (path : bytes) (i : polyfs_inode) (s : state) :
  Inv s -> extends path0 path ->
  wp (do_special_inode path i) (fun _ s' => Inv s') s.
Proof. intros H Hp. unfold do_special_inode. frame_calls. Qed.

Lemma frame_do_directory_loop
    (expand : bytes -> polyfs_inode -> M unit) (newpath : bytes) :
  extends path0 newpath ->
  (forall p i s, extends path0 p -> good i -> Inv s ->
                 wp (expand p i) (fun _ s' => Inv s') s) ->
  forall (n : nat) (count offset : Z) (s : state),
    Inv s ->
    wp (do_directory_loop expand n newpath count offset)
       (fun _ s' => Inv s') s.
Proof.
  intros Hp Hexpand. induction n as [|n IH]; intros count offset s H;
    cbn [do_directory_loop].
  - destruct (count >? 0); [exact Logic.I|assumption].
  - destruct (count >? 0); [|assumption].
    unfold iget. frame_calls.
    eapply wp_mono;
      [apply Hexpand;
       [apply extends_app; assumption|apply good_iget|assumption]
      |cbv beta; intros ? ? ?].
    frame_calls; apply IH; assumption.
Qed.

Lemma frame_do_directory
    (expand : bytes -> polyfs_inode -> M unit) (n : nat) (path : bytes)
    (i : polyfs_inode) (s : state) :
  Inv s -> extends path0 path ->
  (forall p j s', extends path0 p -> good j -> Inv s' ->
                  wp (expand p j) (fun _ s'' => Inv s'') s') ->
  wp (do_directory expand n path i) (fun _ s' => Inv s') s.
Proof.
  intros H Hp Hexpand. unfold do_directory. frame_calls;
    (apply frame_do_directory_loop;
     [destruct (_ >? 1); [apply extends_app|]; assumption
     |assumption|assumption]).
Qed.

(** The walk keeps the property. *)
Lemma frame_expand_fs :
  forall (fuel : nat) (path : bytes) (i : polyfs_inode) (s : state),
    extends path0 path -> good i -> Inv s ->
    wp (expand_fs super fuel path i) (fun _ s' => Inv s') s.
Proof.
  induction fuel as [|fuel IH]; intros path i s Hp Hgood H; cbn [expand_fs];
    [exact Logic.I|].
  destruct (S_ISDIR _); [|destruct (S_ISREG _); [|destruct (S_ISLNK _)]].
  - apply frame_do_directory; auto.
  - apply frame_do_file; auto.
  - apply frame_do_symlink; auto.
  - apply frame_do_special_inode; auto.
Qed.

End Frame.

(** An accepted [test_fs] is an accepted walk from the root inode; the
    tests after the walk leave the state as it is. *)
Lemma test_fs_walk (super : polyfs_super) (fuel : nat) (start : Z)
    (st st' : state) :
  test_fs super fuel start st = Ok tt st' ->
  expand_fs super fuel extract_dir (polyfs_iget (s_root super)) st = Ok tt st'.
Proof.
  unfold test_fs. unfold bind at 1, when at 1.
  destruct (negb (S_ISDIR _)); [discriminate|].
  unfold ret at 1, bind at 1, when at 1.
  destruct (_ && _); [discriminate|].
  unfold ret at 1, bind.
  destruct (expand_fs _ _ _ _ st) as [[] st1| |]; try discriminate.
  intros H. apply test_fs_layout_ok in H. destruct H as [-> _]. reflexivity.
Qed.

Lemma counters_le_refl (st : state) : counters_le st st.
Proof. unfold counters_le. lia. Qed.

(** The walk only moves the layout counters outwards, and it keeps the read
    window in step with the file: [start_dir] and [start_data] never grow,
    [end_dir] and [end_data] never shrink, whatever the inode, the path and
    the state the walk starts from. *)
Theorem walk_moves_counters_outwards (super : polyfs_super) (fuel : nat)
    (path : bytes) (i : polyfs_inode) (st st' : state) :
  expand_fs super fuel path i st = Ok tt st' ->
  counters_le st st' /\ (window_ok st -> window_ok st').
Proof.
  intros Hwalk. split.
  - refine (wp_ok _ _ _ _ _
              (frame_expand_fs (counters_le st) path super (fun _ => True)
                               (fun _ => Logic.I) _ _ _ _ _ _ _
                               fuel path i st (extends_refl path) Logic.I
                               (counters_le_refl st)) Hwalk);
      unfold counters_le; intros; cbn;
      rewrite ?start_dir_romfs_load, ?end_dir_romfs_load,
        ?start_data_romfs_load, ?end_data_romfs_load;
      try assumption; lia.
  - intros Hwin.
    refine (wp_ok _ _ _ _ _
              (frame_expand_fs window_ok path super (fun _ => True)
                               (fun _ => Logic.I) _ _ _ _ _ _ _
                               fuel path i st (extends_refl path) Logic.I
                               Hwin)
              Hwalk);
      try (intros; assumption).
    intros; apply romfs_load_window_ok; assumption.
Qed.

Lemma host_grows_refl (path : bytes) (st : state) : host_grows path st st.
Proof. exists []. rewrite app_nil_r. auto. Qed.

(** An accepted walk makes system calls only when extracting, and every
    call acts on a path that starts with the path the walk was given. *)
Theorem walk_stays_below_path (super : polyfs_super) (fuel : nat)
    (path : bytes) (i : polyfs_inode) (st st' : state) :
  expand_fs super fuel path i st = Ok tt st' -> host_grows path st st'.
Proof.
  intros Hwalk.
  refine (wp_ok _ _ _ _ _
            (frame_expand_fs (host_grows path st) path super
                             (fun _ => True) (fun _ => Logic.I)
                             _ _ _ _ _ _ _
                             fuel path i st (extends_refl path) Logic.I
                             (host_grows_refl path st)) Hwalk);
    try (intros; assumption).
  { intros o s H. unfold host_grows. rewrite host_romfs_load. exact H. }
  intros c s (new & Hhost & Hall & Hnone) Hextract Hpath.
  exists (new ++ [c]). cbn. rewrite Hhost, app_assoc.
  repeat split; [apply Forall_app; auto|congruence].
Qed.

(** ** Stored blocks *)

Ltac run_m :=
  unfold when, bind, ret, get, modify, die, timeout in *.

(** The length handed to [uncompress_block], when the block-end pointer and
    the start of the block are below 4 GiB. *)
Lemma block_length_int (next curr : Z) :
  0 <= next < 2 ^ 32 -> 0 <= curr < 2 ^ 32 ->
  to_int (to_ulong (next - curr)) = next - curr
  \/ to_int (to_ulong (next - curr)) = next - curr + 2 ^ 32
  \/ to_int (to_ulong (next - curr)) = next - curr - 2 ^ 32.
Proof.
  unfold to_int, to_ulong. change (2 ^ 31) with 2147483648.
  change (2 ^ 32) with 4294967296. change (2 ^ 64) with 18446744073709551616.
  intros Hn Hc. Z.div_mod_to_equations. lia.
Qed.

(** One block of an image without compression: the pointer that is read,
    what it does to the counters, and the length that comes out. *)
Lemma stored_block_turn (super : polyfs_super) (offset size curr next out : Z)
    (st sb : state) :
  has_flag (s_flags super) POLYFS_FLAG_LZO_COMPRESSION = false ->
  has_flag (s_flags super) POLYFS_FLAG_ZLIB_COMPRESSION = false ->
  do_uncompress_block super offset size curr st = Ok (next, out) sb ->
  next = read_u32 offset st
  /\ start_data sb = start_data st /\ next <= end_data sb
  /\ (next = curr \/ out = to_ulong (to_int (to_ulong (next - curr)))).
Proof.
  intros Hlzo Hzlib.
  unfold do_uncompress_block, romfs_read. run_m.
  fold (read_u32 offset st). set (next' := read_u32 offset st).
  pose proof start_data_romfs_load as Hsd.
  pose proof end_data_romfs_load as Hed.
  rewrite Hed.
  destruct (next' >? end_data _) eqn:Eend; cbv beta iota;
    (destruct (curr =? next') eqn:Ehole; cbv beta iota;
     [|rewrite uncompress_block_stored by assumption;
       destruct (_ >? POLYFS_BLOCK_SIZE); [discriminate|]]);
    intros H; inversion H; subst; cbn; rewrite ?Hsd, ?Hed; cbn;
    rewrite ?Hsd, ?Hed; repeat split; auto; lia.
Qed.

Lemma stored_block_pointer (next curr m : Z) :
  0 <= next < 2 ^ 32 -> 0 <= curr < 2 ^ 32 - POLYFS_BLOCK_SIZE ->
  0 <= m <= POLYFS_BLOCK_SIZE ->
  to_ulong (to_int (to_ulong (next - curr))) = m ->
  next = curr + m.
Proof.
  unfold POLYFS_BLOCK_SIZE. intros Hnext Hcurr Hm.
  destruct (block_length_int next curr Hnext ltac:(lia)) as [E|[E|E]];
    rewrite E; unfold to_ulong; change (2 ^ 32) with 4294967296 in *;
    change (2 ^ 64) with 18446744073709551616;
    intros H; Z.div_mod_to_equations; lia.
Qed.

(** The length test of one turn of the loop, when the turn goes on. *)
Lemma block_length_passed {A} (size out : Z) (k : M A) (st : state) (a : A)
    (st' : state) :
  ((if size >=? POLYFS_BLOCK_SIZE then
      when (negb (out =? POLYFS_BLOCK_SIZE))
           (die FSCK_UNCORRECTED "non-block (%ld) bytes")
    else
      when (negb (out =? size))
           (die FSCK_UNCORRECTED "non-size (%ld vs %ld) bytes")) ;; k) st
  = Ok a st' ->
  out = Z.min POLYFS_BLOCK_SIZE size /\ k st = Ok a st'.
Proof.
  unfold bind at 1. unfold when, die, ret, POLYFS_BLOCK_SIZE.
  destruct (size >=? 4096) eqn:E.
  - destruct (out =? 4096) eqn:E'; cbn [negb]; [|discriminate].
    intros H. split; [lia|exact H].
  - destruct (out =? size) eqn:E'; cbn [negb]; [|discriminate].
    intros H. split; [lia|exact H].
Qed.

(** In an image without compression a file block that is let through is
    either a hole or exactly as long as what it must expand to: the
    block-end pointer is the start of the block plus the smaller of
    POLYFS_BLOCK_SIZE and the size that remains.  A pointer that lies
    before the start of the block, or a block that is too short or too
    long, ends the run. *)
Theorem stored_block_is_exact (super : polyfs_super) (n : nat) (path : bytes)
    (offset size curr : Z) (st st' : state) :
  has_flag (s_flags super) POLYFS_FLAG_LZO_COMPRESSION = false ->
  has_flag (s_flags super) POLYFS_FLAG_ZLIB_COMPRESSION = false ->
  0 <= curr < 2 ^ 32 - POLYFS_BLOCK_SIZE -> 0 <= size ->
  do_uncompress_loop super (S n) path offset size curr st = Ok tt st' ->
  read_u32 offset st = curr
  \/ read_u32 offset st = curr + Z.min POLYFS_BLOCK_SIZE size.
Proof.
  intros Hlzo Hzlib Hcurr Hsize.
  rewrite do_uncompress_loop_turn.
  destruct (do_uncompress_block super offset size curr st)
    as [[next out] sb| |] eqn:Hblock; try discriminate.
  intros Hrest. apply block_length_passed in Hrest. destruct Hrest as [Hout _].
  destruct (stored_block_turn _ _ _ _ _ _ _ _ Hlzo Hzlib Hblock)
    as (Hnext & _ & _ & [Hhole|Hlen]).
  - left. congruence.
  - right. rewrite <- Hnext.
    apply stored_block_pointer; try assumption.
    + rewrite Hnext. apply le32_range.
    + unfold POLYFS_BLOCK_SIZE. lia.
    + congruence.
Qed.

(** ** Termination *)

Ltac ends_step :=
  lazymatch goal with
  | |- bind _ _ _ <> Timeout => apply bind_ends; [|intros ? ? ?]
  | |- when ?b _ _ <> Timeout => unfold when at 1; destruct b
  | |- (if ?b then _ else _) _ <> Timeout => destruct b
  | |- (let '(_, _) := ?p in _) _ <> Timeout => destruct p
  | |- sys _ _ _ <> Timeout => apply sys_ends
  | |- uncompress_block _ _ _ _ <> Timeout => apply uncompress_block_ends
  | |- ret _ _ <> Timeout => discriminate
  | |- get _ _ <> Timeout => discriminate
  | |- modify _ _ <> Timeout => discriminate
  | |- die _ _ _ <> Timeout => discriminate
  | |- romfs_read _ _ <> Timeout => discriminate
  end.

Lemma change_file_status_ends (path : bytes) (i : polyfs_inode) (st : state) :
  change_file_status path i st <> Timeout.
Proof. unfold change_file_status. repeat ends_step. Qed.

Lemma do_symlink_ends (super : polyfs_super) (path : bytes)
    (i : polyfs_inode) (st : state) :
  do_symlink super path i st <> Timeout.
Proof.
  unfold do_symlink. repeat ends_step; apply change_file_status_ends.
Qed.

Lemma do_special_inode_ends (path : bytes) (i : polyfs_inode) (st : state) :
  do_special_inode path i st <> Timeout.
Proof.
  unfold do_special_inode. repeat ends_step; apply change_file_status_ends.
Qed.

Lemma do_file_ends (super : polyfs_super) (n : nat) (path : bytes)
    (i : polyfs_inode) (st : state) :
  0 <= i_size i < POLYFS_BLOCK_SIZE * Z.of_nat n -> i_size i < 2 ^ 64 ->
  do_file super n path i st <> Timeout.
Proof.
  intros Hsize Hlong. unfold do_file, do_uncompress.
  repeat ends_step;
    first [apply change_file_status_ends
          |apply do_uncompress_loop_ends; assumption].
Qed.

(** An inode that is not a directory is dealt with in bounded time: the
    check or extraction of a regular file, a link or a special file ends
    within 4096 turns of the block loop, the most a 24-bit size allows, so
    any fuel above 4096 is enough. *)
Theorem leaf_inode_ends (super : polyfs_super) (fuel : nat) (path : bytes)
    (i : polyfs_inode) (st : state) :
  S_ISDIR (i_mode i) = false -> 0 <= i_size i < 2 ^ 24 ->
  (4096 < fuel)%nat ->
  expand_fs super fuel path i st <> Timeout.
Proof.
  intros Hdir Hsize Hfuel. destruct fuel as [|n]; [lia|].
  cbn [expand_fs]. rewrite Hdir.
  change (2 ^ 24) with 16777216 in Hsize.
  destruct (S_ISREG _); [|destruct (S_ISLNK _)].
  - apply do_file_ends.
    + unfold POLYFS_BLOCK_SIZE. lia.
    + change (2 ^ 64) with 18446744073709551616. lia.
  - apply do_symlink_ends.
  - apply do_special_inode_ends.
Qed.

(** The loop over the children of a directory takes at most one turn per
    12 bytes of the directory size: when the handler of the children ends,
    the loop ends. *)
Theorem do_directory_loop_ends (expand : bytes -> polyfs_inode -> M unit)
    (newpath : bytes) :
  (forall p j s, expand p j s <> Timeout) ->
  forall (n : nat) (count offset : Z) (st : state),
    count <= 12 * Z.of_nat n -> count < 2 ^ 31 ->
    do_directory_loop expand n newpath count offset st <> Timeout.
Proof.
  intros Hexpand. change (2 ^ 31) with 2147483648.
  induction n as [|n IH]; intros count offset st Hcount Hint;
    cbn [do_directory_loop]; (destruct (count >? 0) eqn:Epos; [|discriminate]);
    [lia|].
  unfold iget. apply bind_ends; [repeat ends_step|].
  intros child s Hchild.
  assert (Hname : 0 <= i_namelen child <= 63).
  { revert Hchild. unfold bind, romfs_read, ret. intros H; inversion H.
    apply polyfs_iget_namelen. }
  destruct (child_record_size child Hname) as [Hnewlen Hrecord].
  rewrite Hrecord, Hnewlen. unfold sizeof_inode in *.
  repeat ends_step; try apply Hexpand.
  apply IH.
  - rewrite to_int_small by (change (2 ^ 31) with 2147483648; lia). lia.
  - pose proof (to_int_range (count - (12 + 4 * i_namelen child))).
    rewrite to_int_small by (change (2 ^ 31) with 2147483648; lia). lia.
Qed.

(** ** The superblock and the CRC *)

(** Where the superblock is looked for: at offset 0, and at [PAD_SIZE]
    only when the magic is not at offset 0 and the file is long enough. *)
Lemma find_superblock_cases :
  (fst find_superblock = 0
   /\ snd find_superblock = read_super (take sizeof_super image))
  \/ (fst find_superblock = PAD_SIZE
      /\ PAD_SIZE + sizeof_super <= blen image
      /\ s_magic (read_super (take sizeof_super image)) <> POLYFS_MAGIC
      /\ snd find_superblock
         = read_super (take sizeof_super (drop PAD_SIZE image)))
  \/ s_magic (snd find_superblock) <> POLYFS_MAGIC.
Proof.
  unfold find_superblock.
  destruct (s_magic (read_super (take sizeof_super image)) =? POLYFS_MAGIC)
    eqn:E0; [left; auto|].
  destruct (blen image >=? PAD_SIZE + sizeof_super) eqn:E1.
  - destruct (s_magic (read_super (take sizeof_super (drop PAD_SIZE image)))
              =? POLYFS_MAGIC) eqn:E2.
    + right; left. cbn [fst snd]. repeat split; auto; lia.
    + right; right. cbn [snd]. lia.
  - right; right. cbn [snd]. lia.
Qed.

(** The tests of the magic, the flags and the file count. *)
Lemma test_super_checks (st st' : state) (start length : Z)
    (super : polyfs_super) :
  test_super st = Ok (start, length, super) st' ->
  (start, super) = find_superblock
  /\ s_magic super = POLYFS_MAGIC
  /\ Z.land (s_flags super) (Z.lnot POLYFS_SUPPORTED_FLAGS) = 0
  /\ fsid_files super <> 0.
Proof.
  unfold test_super, die, ret.
  destruct (blen image <? sizeof_super); [discriminate|].
  destruct find_superblock as [start0 super0].
  destruct (s_magic super0 =? POLYFS_MAGIC) eqn:Hmagic; cbn [negb];
    [|discriminate].
  destruct (Z.land (s_flags super0) (Z.lnot POLYFS_SUPPORTED_FLAGS) =? 0)
    eqn:Hflags; cbn [negb]; [|discriminate].
  destruct (s_size super0 <? POLYFS_BLOCK_SIZE); [discriminate|].
  destruct (has_flag (s_flags super0) POLYFS_FLAG_FSID_VERSION_1);
    [|discriminate].
  destruct (fsid_files super0 =? 0) eqn:Hfiles; [discriminate|].
  destruct (blen image <? s_size super0); [discriminate|].
  intros H; inversion H; subst.
  repeat split; lia.
Qed.

(** What an accepted superblock is: found at offset 0, or at [PAD_SIZE] when
    the magic is not at offset 0 and the file is long enough; with the
    magic, no flag outside the supported set, the version flag, a file
    count, and a size between one block and the length of the file. *)
Theorem test_super_accepts (st st' : state) (start length : Z)
    (super : polyfs_super) :
  test_super st = Ok (start, length, super) st' ->
  st' = st /\ length = blen image
  /\ ((start = 0 /\ super = read_super (take sizeof_super image))
      \/ (start = PAD_SIZE /\ PAD_SIZE + sizeof_super <= blen image
          /\ s_magic (read_super (take sizeof_super image)) <> POLYFS_MAGIC
          /\ super = read_super (take sizeof_super (drop PAD_SIZE image))))
  /\ s_magic super = POLYFS_MAGIC
  /\ Z.land (s_flags super) (Z.lnot POLYFS_SUPPORTED_FLAGS) = 0
  /\ has_flag (s_flags super) POLYFS_FLAG_FSID_VERSION_1 = true
  /\ fsid_files super <> 0
  /\ POLYFS_BLOCK_SIZE <= s_size super <= blen image
  /\ s_size super < 2 ^ 32.
Proof.
  intros Hsuper.
  destruct (test_super_ok _ _ _ _ _ Hsuper)
    as (Hst & Hfind & Hlength & _ & Hv1 & Hsize).
  destruct (test_super_checks _ _ _ _ _ Hsuper)
    as (_ & Hmagic & Hflags & Hfiles).
  pose proof (find_superblock_size start super Hfind) as Hlong.
  pose proof find_superblock_cases as Hcases.
  rewrite <- Hfind in Hcases. cbn [fst snd] in Hcases.
  repeat split; try assumption; try lia.
  destruct Hcases as [[H0 H1]|[(H0 & H1 & H2 & H3)|Hbad]].
  - left. split; assumption.
  - right. repeat split; assumption.
  - contradiction.
Qed.

(** The value that [test_crc] compares with the stored CRC, for a
    superblock that passed [test_super]. *)
Lemma test_crc_value (super : polyfs_super) (start : Z) (st : state) :
  start = 0 \/ start = PAD_SIZE ->
  has_flag (s_flags super) POLYFS_FLAG_FSID_VERSION_1 = true ->
  POLYFS_BLOCK_SIZE <= s_size super <= blen image ->
  s_size super < 2 ^ 32 ->
  test_crc super start st
  = if crc32 crc32_init (crc_region image start (s_size super))
       =? fsid_crc super
    then Ok tt st else Die FSCK_UNCORRECTED "crc error".
Proof.
  intros Hstart Hv1 Hsize Hfind.
  unfold POLYFS_BLOCK_SIZE in Hsize. change (2 ^ 32) with 4294967296 in Hfind.
  assert (Hs : 0 <= start <= 512) by (unfold PAD_SIZE in Hstart; lia).
  set (s := Z.to_nat start). set (lim := Z.to_nat (s_size super - start)).
  assert (Es : start = Z.of_nat s) by (unfold s; lia).
  assert (El : s_size super = Z.of_nat s + Z.of_nat lim) by (unfold s, lim; lia).
  assert (Hlimit : to_uint (s_size super - Z.of_nat s) = Z.of_nat lim).
  { unfold to_uint. change (2 ^ 32) with 4294967296.
    rewrite Z.mod_small by lia. lia. }
  assert (Hlim : (36 <= lim <= List.length (skipn s image))%nat).
  { rewrite length_skipn. unfold blen in Hsize. lia. }
  unfold test_crc. rewrite Hv1. cbn [negb].
  clearbody s lim. subst start. rewrite Hlimit, El.
  rewrite (crc_region_patched s lim _ eq_refl) by assumption.
  destruct mmap_ok.
  - rewrite (mmap_region s lim _ eq_refl) by assumption.
    destruct (_ =? _); reflexivity.
  - pose proof (test_crc_read_region super s lim _ eq_refl Hlimit Hlim
                  (S (List.length image)) 0 crc32_init (zeros 4096)) as Hread.
    change (Z.of_nat 0) with 0 in Hread.
    rewrite Z.add_0_r in Hread. rewrite Hread by (rewrite ?length_skipn; lia).
    rewrite Nat.sub_0_r, skipn_O. destruct (_ =? _); reflexivity.
Qed.

End Further.

(** The read loop that stands in for a failed mmap gives the verdict of
    the mmap path: for a superblock that passed [test_super], [test_crc]
    ends the same way whether mmap succeeds or not. *)
Theorem test_crc_read_loop_agrees {hdr : Header} (r : Run) (st st' : state)
    (start length : Z) (super : polyfs_super) :
  test_super (run := r) st = Ok (start, length, super) st' ->
  test_crc (run := with_mmap r false) super start st'
  = test_crc (run := with_mmap r true) super start st'.
Proof.
  intros Hsuper. apply test_super_ok in Hsuper.
  destruct Hsuper as (_ & Hfind & _ & Hstart & Hv1 & Hsize).
  assert (Hlong : s_size super < 2 ^ 32)
    by apply (find_superblock_size (run := r) start super Hfind).
  rewrite (test_crc_value (run := with_mmap r false)) by assumption.
  rewrite (test_crc_value (run := with_mmap r true)) by assumption.
  reflexivity.
Qed.

Lemma take_app_short (n : Z) (l extra : bytes) :
  n <= blen l -> take n (l ++ extra) = take n l.
Proof.
  intros H. unfold take, blen in *. rewrite firstn_app.
  replace (Z.to_nat n - List.length l)%nat with 0%nat by lia.
  rewrite firstn_O. apply app_nil_r.
Qed.

Lemma drop_app_short (n : Z) (l extra : bytes) :
  n <= blen l -> drop n (l ++ extra) = drop n l ++ extra.
Proof.
  intros H. unfold drop, blen in *. rewrite skipn_app.
  replace (Z.to_nat n - List.length l)%nat with 0%nat by lia.
  reflexivity.
Qed.

(** Bytes that follow the filesystem in the file do not count: when the
    superblock tests pass, they pass with the same superblock and the same
    [start] after any bytes are appended to the file, and the CRC test
    gives the same verdict. *)
Theorem trailing_bytes_ignored {hdr : Header} (r : Run) (extra : bytes)
    (st st' : state) (start length : Z) (super : polyfs_super) :
  test_super (run := r) st = Ok (start, length, super) st' ->
  test_super (run := with_image r (@image r ++ extra)) st
  = Ok (start, length + blen extra, super) st'
  /\ test_crc (run := with_image r (@image r ++ extra)) super start st'
     = test_crc (run := r) super start st'.
Proof.
  intros Hsuper.
  destruct (test_super_ok _ _ _ _ _ Hsuper)
    as (-> & Hfound & -> & Hstart & Hv1 & Hsize).
  destruct (test_super_checks _ _ _ _ _ Hsuper)
    as (_ & Hmagic & Hflags & Hfiles).
  pose proof (proj2 (find_superblock_size (run := r) start super Hfound))
    as Hlong.
  assert (Hfind :
            (start = 0
             /\ super = read_super (take sizeof_super (@image r)))
            \/ (start = PAD_SIZE
                /\ PAD_SIZE + sizeof_super <= blen (@image r)
                /\ s_magic (read_super (take sizeof_super (@image r)))
                   <> POLYFS_MAGIC
                /\ super
                   = read_super
                       (take sizeof_super (drop PAD_SIZE (@image r))))).
  { pose proof (find_superblock_cases (run := r)) as Hcases.
    rewrite <- Hfound in Hcases. cbn [fst snd] in Hcases.
    destruct Hcases as [H0|[H0|H0]]; [left|right|contradiction]; exact H0. }
  assert (Hlen : blen (@image r ++ extra) = blen (@image r) + blen extra).
  { unfold blen. rewrite length_app. lia. }
  assert (Hextra : 0 <= blen extra) by (unfold blen; lia).
  assert (H76 : sizeof_super <= blen (@image r)).
  { unfold POLYFS_BLOCK_SIZE, sizeof_super in *. lia. }
  split.
  - unfold test_super, die, ret.
    change (@image (with_image r (@image r ++ extra)))
      with (@image r ++ extra).
    rewrite Hlen.
    destruct (blen (@image r) + blen extra <? sizeof_super) eqn:E; [lia|].
    assert (Hsame : find_superblock (run := with_image r (@image r ++ extra))
                    = (start, super)).
    { unfold find_superblock.
      change (@image (with_image r (@image r ++ extra)))
        with (@image r ++ extra).
      rewrite take_app_short by assumption.
      destruct Hfind as [[-> ->]|(-> & Hpad & Hmiss & ->)].
      - rewrite Hmagic, Z.eqb_refl. reflexivity.
      - destruct (_ =? POLYFS_MAGIC) eqn:E0; [lia|].
        rewrite Hlen.
        destruct (_ >=? PAD_SIZE + sizeof_super) eqn:E1; [|lia].
        rewrite drop_app_short
          by (unfold PAD_SIZE, sizeof_super in *; lia).
        rewrite take_app_short
          by (rewrite blen_drop; unfold PAD_SIZE, sizeof_super in *; lia).
        rewrite Hmagic, Z.eqb_refl. reflexivity. }
    rewrite Hsame, Hmagic, Z.eqb_refl, Hflags, Hv1. cbn [negb Z.eqb].
    destruct (s_size super <? POLYFS_BLOCK_SIZE) eqn:E1; [lia|].
    destruct (fsid_files super =? 0) eqn:E2; [lia|].
    destruct (blen (@image r) + blen extra <? s_size super) eqn:E3; [lia|].
    reflexivity.
  - rewrite (test_crc_value (run := with_image r (@image r ++ extra)))
      by (try assumption;
          change (@image (with_image r (@image r ++ extra)))
            with (@image r ++ extra); lia).
    rewrite (test_crc_value (run := r)) by assumption.
    change (@image (with_image r (@image r ++ extra)))
      with (@image r ++ extra).
    replace (crc_region (@image r ++ extra) start (s_size super))
      with (crc_region (@image r) start (s_size super)); [reflexivity|].
    unfold crc_region. f_equal.
    unfold PAD_SIZE, POLYFS_BLOCK_SIZE in *.
    rewrite drop_app_short by lia.
    rewrite take_app_short; [reflexivity|].
    rewrite blen_drop by lia. lia.
Qed.

Section Further2.

Context {hdr : Header} {libs : Libraries} {run : Run}.

Ltac run_m :=
  unfold when, bind, ret, get, modify, die, timeout in *.

(** ** Directory entries *)

Lemma c_string_length (l : bytes) : blen (c_string l) <= blen l.
Proof.
  unfold blen. induction l as [|b l IH]; cbn [c_string]; [lia|].
  destruct (b =? 0); cbn [List.length]; lia.
Qed.

Lemma c_string_no_nul (l : bytes) : ~ In 0 (c_string l).
Proof.
  induction l as [|b l IH]; cbn [c_string]; [auto|].
  destruct (b =? 0) eqn:E; [auto|].
  intros [H|H]; [lia|auto].
Qed.

(** A directory entry that is let through has a name: the name the child is
    walked under is not empty, holds no NUL, is at most 252 bytes long and
    is at most 3 bytes shorter than its padded length. *)
Theorem child_name_checked (expand : bytes -> polyfs_inode -> M unit)
    (n : nat) (newpath : bytes) (count offset : Z) (st st' : state) :
  0 < count ->
  do_directory_loop expand (S n) newpath count offset st = Ok tt st' ->
  let name := dir_entry_name offset st in
  let padded := 4 * i_namelen (peek_inode offset st) in
  1 <= blen name /\ padded - 3 <= blen name <= padded /\ padded <= 252
  /\ ~ In 0 name
  /\ exists s s' : state,
      expand (newpath ++ name) (peek_inode offset st) s = Ok tt s'.
Proof.
  intros Hcount. cbn [do_directory_loop].
  destruct (count >? 0) eqn:E; [|lia].
  unfold iget, romfs_read. run_m. fold (peek_inode offset st).
  assert (Hname : 0 <= i_namelen (peek_inode offset st) <= 63)
    by apply polyfs_iget_namelen.
  destruct (child_record_size _ Hname) as [Hnewlen _].
  fold (dir_entry_name offset st).
  set (name := dir_entry_name offset st) in *.
  assert (Hlen : blen name <= 4 * i_namelen (peek_inode offset st)).
  { unfold name, dir_entry_name. cbv zeta. rewrite Hnewlen.
    etransitivity; [apply c_string_length|].
    unfold blen, take. rewrite length_firstn. lia. }
  rewrite Hnewlen.
  destruct (4 * i_namelen (peek_inode offset st) =? 0) eqn:Ezero;
    [discriminate|].
  destruct (to_ulong _ >? 3) eqn:Epad; [discriminate|].
  destruct (expand _ _ _) as [[] s1| |] eqn:Hchild; try discriminate.
  intros _. cbv zeta.
  assert (Hdiff : 4 * i_namelen (peek_inode offset st) - blen name <= 3).
  { revert Epad. unfold blen. rewrite length_app, Nat2Z.inj_add.
    unfold to_ulong.
    change (2 ^ 64) with 18446744073709551616. unfold blen in Hlen.
    rewrite Z.mod_small by lia. lia. }
  repeat split; try lia.
  - apply c_string_no_nul.
  - eauto.
Qed.

(** A request for a block that starts at or after the end of the file is
    not an error: the read gives nothing, the buffer keeps the bytes it
    held, and they are what the caller gets. *)
Theorem romfs_read_past_end (offset : Z) (st : state) :
  let block := to_uint (Z.shiftr offset ROMBUFFER_BITS) in
  blen image <= to_uint (Z.shiftl block ROMBUFFER_BITS) ->
  romfs_read offset st
  = Ok (drop (Z.land offset ROMBUFFERMASK) (read_buffer st))
       (romfs_load offset st)
    /\ read_buffer (romfs_load offset st) = read_buffer st.
Proof.
  intros block Hend.
  assert (Hsame : read_buffer (romfs_load offset st) = read_buffer st).
  { unfold romfs_load. fold block.
    destruct (block =? read_buffer_block st); [reflexivity|].
    cbn [read_buffer set_read_buffer].
    assert (Hnone : drop (to_uint (Z.shiftl block ROMBUFFER_BITS)) image = []).
    { unfold drop. apply skipn_all2. unfold blen in Hend. lia. }
    rewrite Hnone. unfold take. rewrite firstn_nil. reflexivity. }
  split; [|exact Hsame].
  unfold romfs_read. rewrite Hsame. reflexivity.
Qed.

End Further2.

(** ** Exit statuses *)

Section Dies.

Context {hdr : Header} {libs : Libraries} {run : Run}.

Variable P : Z -> string -> Prop.
Variable super : polyfs_super.

Hypothesis P_uncorrected : forall msg, P FSCK_UNCORRECTED msg.
Hypothesis P_error : opt_extract = true -> forall msg, P FSCK_ERROR msg.












End Dies.


(** ** The data region of an image without compression *)

(** ** The data region of an image without compression *)

Section Ordered.

Context {hdr : Header} {libs : Libraries} {run : Run}.

Variable super : polyfs_super.
Hypothesis Hlzo : has_flag (s_flags super) POLYFS_FLAG_LZO_COMPRESSION = false.
Hypothesis Hzlib : has_flag (s_flags super) POLYFS_FLAG_ZLIB_COMPRESSION = false.

Lemma polyfs_iget_in_range (p : bytes) : inode_in_range (polyfs_iget p).
Proof.
  split; [|apply polyfs_iget_size].
  unfold polyfs_iget; cbn [i_offset].
  pose proof (le32_range (drop 8 p)) as H.
  rewrite Z.shiftr_div_pow2 by lia.
  change (2 ^ 6) with 64. change (2 ^ 26) with 67108864.
  change (2 ^ 32) with 4294967296 in H.
  split; [apply Z.div_pos; lia|apply Z.div_lt_upper_bound; lia].
Qed.

(** The byte offset of a payload. *)
Lemma payload_offset (i : polyfs_inode) :
  inode_in_range i ->
  to_ulong (Z.shiftl (i_offset i) 2) = 4 * i_offset i.
Proof.
  intros [H _]. change (2 ^ 26) with 67108864 in H.
  rewrite Z.shiftl_mul_pow2 by lia. change (2 ^ 2) with 4.
  unfold to_ulong. change (2 ^ 64) with 18446744073709551616.
  rewrite Z.mod_small by lia. lia.
Qed.

(** The blocks of a file leave [start_data] alone and push [end_data] past
    the start of the first block. *)
Lemma first_block_data (n : nat) (path : bytes) (offset size curr : Z)
    (st st' : state) :
  0 <= curr < 2 ^ 32 - POLYFS_BLOCK_SIZE -> 0 <= size ->
  do_uncompress_loop super n path offset size curr st = Ok tt st' ->
  start_data st' = start_data st /\ curr <= end_data st'.
Proof.
  intros Hcurr Hsize. destruct n as [|n]; [discriminate|].
  rewrite do_uncompress_loop_turn.
  destruct (do_uncompress_block super offset size curr st)
    as [[next out] sb| |] eqn:Hblock; try discriminate.
  intros Hrest. pose proof Hrest as Hpass.
  apply block_length_passed in Hpass. destruct Hpass as [Hout _].
  destruct (stored_block_turn _ _ _ _ _ _ _ _ Hlzo Hzlib Hblock)
    as (Hnext & Hsd & Hed & Hlen).
  assert (Hge : curr <= next).
  { destruct Hlen as [->|Hlen]; [lia|].
    assert (Hn : 0 <= next < 2 ^ 32) by (rewrite Hnext; apply le32_range).
    assert (Hm : 0 <= Z.min POLYFS_BLOCK_SIZE size <= POLYFS_BLOCK_SIZE)
      by (unfold POLYFS_BLOCK_SIZE; lia).
    rewrite (stored_block_pointer next curr _ Hn Hcurr Hm) by congruence.
    lia. }
  refine (wp_ok _ (fun _ s => start_data s = start_data st
                              /\ curr <= end_data s) _ _ _ _ Hrest).
  eapply (frame_do_uncompress_rest
            (fun s => start_data s = start_data st /\ curr <= end_data s)
            path);
    try (intros; cbn; rewrite ?start_data_romfs_load, ?end_data_romfs_load;
         first [assumption|lia|apply extends_refl|split; lia]).
Qed.

Lemma wp_intro {A} (m : M A) (Q : A -> state -> Prop) (st : state) :
  (forall a st', m st = Ok a st' -> Q a st') -> wp m Q st.
Proof. unfold wp. destruct (m st); auto. Qed.

Lemma wp_modify (f : state -> state) (Q : unit -> state -> Prop) (s : state) :
  Q tt (f s) -> wp (modify f) Q s.
Proof. auto. Qed.

Lemma wp_romfs_read (o : Z) (Q : bytes -> state -> Prop) (s : state) :
  Q (drop (Z.land o ROMBUFFERMASK) (read_buffer (romfs_load o s)))
    (romfs_load o s) ->
  wp (romfs_read o) Q s.
Proof. auto. Qed.

Lemma wp_sys (c : syscall) (fmt : string) (Q : unit -> state -> Prop)
    (s : state) :
  Q tt (log_syscall c s) -> wp (sys c fmt) Q s.
Proof. unfold wp, sys. destruct (sys_fails _ _); auto. Qed.

Ltac exec_step :=
  lazymatch goal with
  | |- wp (bind _ _) _ _ => apply wp_bind
  | |- wp (ret _) _ _ => apply wp_ret
  | |- wp (get _) _ _ => apply wp_get
  | |- wp (die _ _) _ _ => exact Logic.I
  | |- wp (when ?b _) _ _ => unfold when at 1; case_eq b; intros ?
  | |- wp (modify _) _ _ => apply wp_modify
  | |- wp (sys _ _) _ _ => apply wp_sys
  | |- wp (romfs_read _) _ _ => apply wp_romfs_read
  end.

Lemma data_ordered_log (c : syscall) (s : state) :
  data_ordered s -> data_ordered (log_syscall c s).
Proof. auto. Qed.

(** Setting the owner, the mode and the time keeps the data in order. *)
Lemma data_ordered_status (path : bytes) (i : polyfs_inode) (s : state) :
  data_ordered s ->
  wp (change_file_status path i) (fun _ s' => data_ordered s') s.
Proof.
  intros H. unfold change_file_status.
  repeat first [exec_step|destruct (S_ISLNK _)|apply data_ordered_log];
    assumption.
Qed.

(** Where the block data of a file begins. *)
Lemma file_data_start (i : polyfs_inode) :
  inode_in_range i -> i_size i <> 0 ->
  let curr := to_ulong (4 * i_offset i
                        + 4 * (to_ulong (i_size i + POLYFS_BLOCK_SIZE - 1)
                               / POLYFS_BLOCK_SIZE)) in
  4 * i_offset i < curr < 2 ^ 32 - POLYFS_BLOCK_SIZE.
Proof.
  intros [Hoff Hsize] Hnz. unfold POLYFS_BLOCK_SIZE, to_ulong.
  change (2 ^ 26) with 67108864 in Hoff.
  change (2 ^ 24) with 16777216 in Hsize.
  change (2 ^ 64) with 18446744073709551616.
  change (2 ^ 32) with 4294967296. cbv zeta.
  rewrite (Z.mod_small (i_size i + 4096 - 1)) by lia.
  assert (1 <= (i_size i + 4096 - 1) / 4096 <= 4096).
  { split; [apply Z.div_le_lower_bound; lia|].
    apply Z.lt_succ_r, Z.div_lt_upper_bound; lia. }
  rewrite Z.mod_small by lia. lia.
Qed.

Ltac bool_facts :=
  repeat match goal with
         | H : negb _ = true |- _ => apply negb_true_iff in H
         | H : negb _ = false |- _ => apply negb_false_iff in H
         | H : _ && _ = true |- _ => apply andb_prop in H; destruct H
         | H : _ && _ = false |- _ => apply andb_false_iff in H; destruct H
         | H : (_ =? _) = true |- _ => apply Z.eqb_eq in H
         | H : (_ =? _) = false |- _ => apply Z.eqb_neq in H
         | H : (_ <? _) = true |- _ => apply Z.ltb_lt in H
         | H : (_ <? _) = false |- _ => apply Z.ltb_ge in H
         | H : (_ >? _) = true |- _ => rewrite Z.gtb_ltb in H
         | H : (_ >? _) = false |- _ => rewrite Z.gtb_ltb in H
         end.

Lemma data_ordered_do_file (n : nat) (path : bytes) (i : polyfs_inode)
    (s : state) :
  inode_in_range i -> data_ordered s ->
  wp (do_file super n path i) (fun _ s' => data_ordered s') s.
Proof.
  intros Hrange H. unfold do_file. rewrite (payload_offset i Hrange).
  destruct (i_size i =? 0) eqn:Esize.
  - (* an empty file *)
    repeat first
           [ exec_step
           | apply data_ordered_log
           | eapply wp_mono;
             [apply data_ordered_status|cbv beta; intros [] ? ?] ];
      bool_facts; try discriminate; try assumption; try lia.
  - pose proof (file_data_start i Hrange ltac:(lia)) as Hcurr.
    cbv zeta in Hcurr. destruct Hrange as [Hoff Hsize].
    assert (Hloop :
              forall s0 : state,
                start_data s0 <= 4 * i_offset i ->
                wp (do_uncompress super n path (4 * i_offset i) (i_size i))
                   (fun _ s' => data_ordered s') s0).
    { intros s0 Hs0. apply wp_intro. intros [] s1 Hrun.
      unfold do_uncompress in Hrun.
      apply first_block_data in Hrun; [|lia|lia].
      right. lia. }
    repeat first
           [ exec_step
           | apply data_ordered_log
           | eapply wp_mono;
             [apply data_ordered_status|cbv beta; intros [] ? ?]
           | eapply wp_mono;
             [apply Hloop; cbn [start_data log_syscall set_start_data];
              bool_facts; lia
             |cbv beta; intros [] ? ?] ];
      bool_facts; try discriminate; try assumption.
Qed.

(** Where the block of a link ends, when the link is let through. *)
Lemma link_block_end (i : polyfs_inode) (next : Z) :
  inode_in_range i -> 0 <= next < 2 ^ 32 ->
  let len := to_int (to_ulong (next - to_ulong (4 * i_offset i + 4))) in
  (len >? POLYFS_BLOCK_SIZE) = false ->
  negb (to_ulong len =? i_size i) = false ->
  (i_size i =? 0) = false ->
  next = 4 * i_offset i + 4 + i_size i.
Proof.
  intros [Hoff Hsize] Hnext. cbv zeta.
  assert (Hcurr : to_ulong (4 * i_offset i + 4) = 4 * i_offset i + 4).
  { unfold to_ulong. change (2 ^ 26) with 67108864 in Hoff.
    change (2 ^ 64) with 18446744073709551616.
    rewrite Z.mod_small by lia. reflexivity. }
  rewrite Hcurr.
  pose proof (to_int_range (to_ulong (next - (4 * i_offset i + 4)))) as Hint.
  set (len := to_int _) in *. intros Hbig Hsz Hnz. bool_facts.
  assert (Hlen : to_ulong len = len /\ 0 <= len).
  { revert Hsz. unfold to_ulong. change (2 ^ 31) with 2147483648 in Hint.
    change (2 ^ 24) with 16777216 in Hsize.
    change (2 ^ 64) with 18446744073709551616.
    intros Hsz. Z.div_mod_to_equations. lia. }
  destruct Hlen as [Hlen Hpos].
  apply (stored_block_pointer next (4 * i_offset i + 4) (i_size i)).
  - exact Hnext.
  - unfold POLYFS_BLOCK_SIZE. change (2 ^ 26) with 67108864 in Hoff.
    change (2 ^ 32) with 4294967296. lia.
  - unfold POLYFS_BLOCK_SIZE in *. lia.
  - exact Hsz.
Qed.

Lemma wp_uncompress_block_stored (src : bytes) (len : Z)
    (Q : Z -> state -> Prop) (s : state) :
  ((len >? POLYFS_BLOCK_SIZE) = false -> Q len s) ->
  wp (uncompress_block super src len) Q s.
Proof.
  intros HQ. unfold wp. rewrite uncompress_block_stored by assumption.
  case_eq (len >? POLYFS_BLOCK_SIZE); intros E; [exact Logic.I|].
  apply HQ, E.
Qed.

Lemma data_ordered_do_symlink (path : bytes) (i : polyfs_inode) (s : state) :
  inode_in_range i -> data_ordered s ->
  wp (do_symlink super path i) (fun _ s' => data_ordered s') s.
Proof.
  intros Hrange H. unfold do_symlink. rewrite (payload_offset i Hrange).
  cbv zeta. apply wp_bind, wp_romfs_read.
  pose proof (le32_range (drop (Z.land (4 * i_offset i) ROMBUFFERMASK)
                               (read_buffer (romfs_load (4 * i_offset i) s))))
    as Hnext.
  set (next := le32 _) in *.
  repeat exec_step;
    (apply wp_uncompress_block_stored; intros Hbig;
     repeat first
            [ exec_step
            | apply data_ordered_log
            | eapply wp_mono;
              [apply data_ordered_status|cbv beta; intros [] ? ?] ];
     try assumption;
     match goal with
     | Hsz : negb (_ =? i_size i) = false, Hnz : (i_size i =? 0) = false
       |- _ =>
       pose proof (link_block_end i next Hrange Hnext Hbig Hsz Hnz) as Hend
     end;
     destruct Hrange as [_ Hsize]; right;
     bool_facts;
     repeat first
            [ progress cbn [start_data end_data set_outbuffer set_start_data
                            set_end_data log_syscall] in *
            | rewrite start_data_romfs_load in *
            | rewrite end_data_romfs_load in * ];
     lia).
Qed.

(** The walk keeps the data in order. *)
Lemma data_ordered_expand_fs :
  forall (fuel : nat) (path : bytes) (i : polyfs_inode) (s : state),
    inode_in_range i -> data_ordered s ->
    wp (expand_fs super fuel path i) (fun _ s' => data_ordered s') s.
Proof.
  induction fuel as [|fuel IH]; intros path i s Hrange H; cbn [expand_fs];
    [exact Logic.I|].
  destruct (S_ISDIR _); [|destruct (S_ISREG _); [|destruct (S_ISLNK _)]].
  - apply (frame_do_directory data_ordered [] inode_in_range);
      try (intros; assumption).
    + exact polyfs_iget_in_range.
    + intros o s0 [H0|H0]; [left|right];
        rewrite ?start_data_romfs_load, ?end_data_romfs_load; assumption.
    + exists path. reflexivity.
    + intros p j s' _ Hj Hs'. apply IH; assumption.
  - apply data_ordered_do_file; assumption.
  - apply data_ordered_do_symlink; assumption.
  - apply (frame_do_special_inode data_ordered []);
      try (intros; assumption).
    exists path. reflexivity.
Qed.

End Ordered.

(** In an accepted image without compression the data region is not empty
    once there is data: the first byte of block pointers or link data lies
    strictly before the end of the last block, so, with what [test_fs]
    tests after the walk, the regions follow one another as
    superblock, directory, data, end of the image. *)
Theorem data_region_in_order {hdr : Header} {libs : Libraries} {run : Run}
    (fuel : nat) (st : state) :
  has_flag (s_flags (snd find_superblock)) POLYFS_FLAG_LZO_COMPRESSION = false ->
  has_flag (s_flags (snd find_superblock)) POLYFS_FLAG_ZLIB_COMPRESSION = false ->
  polyfsck fuel = Ok tt st ->
  start_data st <> ULONG_MAX ->
  to_ulong (sizeof_super + fst find_superblock) <= start_data st
  /\ end_dir st = start_data st
  /\ start_data st < end_data st
  /\ end_data st <= s_size (snd find_superblock)
  /\ s_size (snd find_superblock) <= blen image.
Proof.
  intros Hlzo Hzlib Hrun Hdata.
  destruct (polyfsck_accepts fuel st Hrun)
    as (start & super & Hfind & _ & Hv1 & Hsize & _ & Hfs).
  rewrite <- Hfind in *. cbn [fst snd] in *.
  pose proof (test_fs_walk _ _ _ _ _ Hfs) as Hwalk.
  pose proof (wp_ok _ _ _ _ _
                (data_ordered_expand_fs super Hlzo Hzlib fuel extract_dir
                   (polyfs_iget (s_root super)) initial_state
                   (polyfs_iget_in_range _) (or_introl eq_refl))
                Hwalk) as Hordered.
  cbv beta in Hordered. destruct Hordered as [Hnone|Hlt]; [contradiction|].
  revert Hfs. unfold test_fs. unfold bind at 1, when at 1.
  destruct (negb (S_ISDIR _)); [discriminate|].
  unfold ret at 1, bind at 1, when at 1.
  destruct (_ && _); [discriminate|].
  unfold ret at 1, bind. rewrite Hwalk.
  intros Hlayout. apply test_fs_layout_ok in Hlayout.
  destruct Hlayout as (_ & Hlow & Hhigh).
  destruct (Hlow Hdata) as [Hsuper Hdir].
  repeat split; try assumption; try lia.
  apply Hhigh, Hv1.
Qed.

(** ** A directory that lists itself *)

Section Cycle.

Context {hdr : Header} {libs : Libraries} {run : Run}.

(** An inode is decoded from the first 12 bytes behind the pointer. *)
Lemma le32_take (k : Z) (p : bytes) :
  0 <= k <= 8 -> le32 (drop k (take 12 p)) = le32 (drop k p).
Proof.
  intros Hk. unfold le32, byte_at, drop, take.
  rewrite !nth_skipn, !nth_firstn.
  change (Z.to_nat 12) with 12%nat.
  repeat match goal with
         | |- context [(?a <? 12)%nat] =>
           replace (a <? 12)%nat with true by (symmetry; apply Nat.ltb_lt; lia)
         end.
  reflexivity.
Qed.

Lemma polyfs_iget_take (p q : bytes) :
  take 12 p = take 12 q -> polyfs_iget p = polyfs_iget q.
Proof.
  intros H. unfold polyfs_iget.
  change (le32 p) with (le32 (drop 0 p)).
  change (le32 q) with (le32 (drop 0 q)).
  rewrite <- (le32_take 0 p), <- (le32_take 4 p), <- (le32_take 8 p) by lia.
  rewrite <- (le32_take 0 q), <- (le32_take 4 q), <- (le32_take 8 q) by lia.
  rewrite H. reflexivity.
Qed.

Variable super : polyfs_super.
Variable o : Z.
Variable child : polyfs_inode.

Hypothesis Hcheck : opt_extract = false.
Hypothesis Hchild : child = polyfs_iget (drop o image).
Hypothesis Hdir : S_ISDIR (i_mode child) = true.
Hypothesis Hself : 4 * i_offset child = o.
Hypothesis Hpos : o <> 0.
Hypothesis Hsize : i_size child <> 0.
Hypothesis Hnamelen : i_namelen child <> 0.
Hypothesis Hname :
  4 * i_namelen child
  - blen (c_string (take (4 * i_namelen child) (drop (o + 12) image))) <= 3.
Hypothesis Hfile : o + 12 + 4 * i_namelen child <= blen image.

Lemma self_listing_ranges :
  0 < o < 2 ^ 28 /\ 0 < i_size child < 2 ^ 24 /\ 0 < i_namelen child <= 63.
Proof.
  pose proof (polyfs_iget_in_range (drop o image)) as [Hoff Hsz].
  pose proof (polyfs_iget_namelen (drop o image)) as Hnl.
  rewrite <- Hchild in *.
  change (2 ^ 26) with 67108864 in Hoff. change (2 ^ 28) with 268435456.
  lia.
Qed.

(** The first entry of the directory at [o], read through the window. *)
Lemma self_listing_entry (st : state) :
  window_ok st -> peek_inode o st = child.
Proof.
  intros Hwin. destruct self_listing_ranges as (Ho & _ & Hnl).
  change (2 ^ 28) with 268435456 in Ho.
  assert (Huint : to_uint o = o).
  { unfold to_uint. change (2 ^ 32) with 4294967296.
    apply Z.mod_small. lia. }
  unfold peek_inode. rewrite Huint, Hchild.
  apply polyfs_iget_take.
  apply window_read; try assumption.
  - change (2 ^ 32) with 4294967296. lia.
  - change ROMBUFFERSIZE with 8192. lia.
  - lia.
Qed.

(** One turn of the loop of [do_directory] on that directory: the entry
    passes the tests of its name and is walked. *)
Lemma self_listing_turn (expand : bytes -> polyfs_inode -> M unit)
    (n : nat) (newpath : bytes) (count : Z) (st : state) :
  (forall p s, window_ok s -> expand p child s = Timeout) ->
  window_ok st -> 0 < count ->
  do_directory_loop expand n newpath count o st = Timeout.
Proof.
  intros Hexpand Hwin Hcount.
  destruct self_listing_ranges as (Ho & _ & Hnl).
  change (2 ^ 28) with 268435456 in Ho.
  destruct n as [|n]; cbn [do_directory_loop];
    (destruct (count >? 0) eqn:E; [|lia]); [reflexivity|].
  unfold iget, romfs_read.
  unfold bind at 1. unfold bind at 1. unfold ret at 1.
  fold (peek_inode o st). rewrite (self_listing_entry st Hwin).
  destruct (child_record_size child) as [Hnewlen _]; [lia|].
  rewrite Hnewlen.
  assert (Hat : to_ulong (o + sizeof_inode) = o + 12).
  { unfold to_ulong, sizeof_inode.
    change (2 ^ 64) with 18446744073709551616.
    apply Z.mod_small. lia. }
  rewrite Hat.
  assert (Huint : to_uint o = o).
  { unfold to_uint. change (2 ^ 32) with 4294967296.
    apply Z.mod_small. lia. }
  rewrite Huint.
  pose proof (romfs_load_window_ok o st Hwin) as Hwin1.
  pose proof (romfs_load_window_ok (o + 12) _ Hwin1) as Hwin2.
  unfold bind at 1.
  rewrite (window_read (o + 12) (4 * i_namelen child) _ Hwin1);
    [|change (2 ^ 32) with 4294967296; lia
     |change ROMBUFFERSIZE with 8192; lia
     |lia].
  set (name := c_string (take (4 * i_namelen child) (drop (o + 12) image)))
    in *.
  assert (Hlen : blen name <= 4 * i_namelen child).
  { unfold name. etransitivity; [apply c_string_length|].
    unfold blen, take. rewrite length_firstn. lia. }
  unfold bind at 1, when at 1.
  destruct (4 * i_namelen child =? 0) eqn:Ezero; [lia|].
  unfold ret at 1. unfold bind at 1, when at 1.
  assert (Epad : (to_ulong (blen newpath + 4 * i_namelen child
                            - blen (newpath ++ name)) >? 3) = false).
  { unfold blen in *. rewrite length_app, Nat2Z.inj_add. unfold to_ulong.
    change (2 ^ 64) with 18446744073709551616.
    rewrite Z.mod_small by lia. lia. }
  rewrite Epad. unfold ret at 1. unfold bind at 1.
  rewrite (Hexpand _ _ Hwin2). reflexivity.
Qed.

(** [do_directory] on an inode whose entries start at [o]. *)
Lemma self_listing_directory (expand : bytes -> polyfs_inode -> M unit)
    (n : nat) (path : bytes) (i : polyfs_inode) (st : state) :
  (forall p s, window_ok s -> expand p child s = Timeout) ->
  window_ok st ->
  inode_in_range i -> 4 * i_offset i = o -> i_size i <> 0 ->
  do_directory expand n path i st = Timeout.
Proof.
  intros Hexpand Hwin Hrange Hat Hnz.
  unfold do_directory. rewrite (payload_offset i Hrange), Hat.
  destruct Hrange as [_ Hsz]. change (2 ^ 24) with 16777216 in Hsz.
  assert (Hcount : to_int (i_size i) = i_size i)
    by (apply to_int_small; change (2 ^ 31) with 2147483648; lia).
  rewrite Hcount.
  unfold bind at 1, when at 1.
  destruct ((o =? 0) && negb (i_size i =? 0)) eqn:Ezero.
  { apply andb_prop in Ezero. destruct Ezero as [Ezero _]. lia. }
  unfold ret at 1, bind at 1, get at 1. unfold bind at 1, when at 1.
  destruct (negb (o =? 0) && (o <? start_dir st)) eqn:Elow;
    [unfold modify at 1|unfold ret at 1];
    (unfold bind at 1, when at 1; rewrite Hcheck; unfold ret at 1;
     apply self_listing_turn; [exact Hexpand|exact Hwin|lia]).
Qed.

(** The walk of the entry itself. *)
Lemma self_listing_entry_walk :
  forall (fuel : nat) (path : bytes) (st : state),
    window_ok st -> expand_fs super fuel path child st = Timeout.
Proof.
  destruct self_listing_ranges as (Ho & Hsz & Hnl).
  induction fuel as [|fuel IH]; intros path st Hwin; cbn [expand_fs];
    [reflexivity|].
  rewrite Hdir.
  apply self_listing_directory; try assumption; try lia.
  rewrite Hchild. apply polyfs_iget_in_range.
Qed.

(** The walk has no guard against a directory that lists itself.  When the
    first entry of the directory at offset [o] is a directory at [o] that
    is not empty and has a well-formed name, the walk of any directory
    inode that points to [o] never returns and no check fails: each level
    walks the first entry before it tests anything that could stop it. *)
Theorem self_listing_directory_never_returns (fuel : nat) (path : bytes)
    (i : polyfs_inode) (st : state) :
  window_ok st ->
  S_ISDIR (i_mode i) = true ->
  inode_in_range i -> 4 * i_offset i = o -> i_size i <> 0 ->
  expand_fs super fuel path i st = Timeout.
Proof.
  intros Hwin Hidir Hrange Hat Hnz.
  destruct fuel as [|fuel]; cbn [expand_fs]; [reflexivity|].
  rewrite Hidir.
  apply self_listing_directory; try assumption.
  intros p s Hs. apply self_listing_entry_walk. exact Hs.
Qed.

End Cycle.

(** * The further properties on the test images *)

Lemma romfs_read_image_witness :
  exists (p : bytes) (st' : state),
    romfs_read (run := check_only six_byte_block) 4 initial_state = Ok p st'
    /\ take 6 p = [1; 2; 3; 4; 5; 6].
Proof.
  destruct (romfs_read_image (run := check_only six_byte_block)
                             4 6 initial_state)
    as (p & st' & Hread & Htake & _).
  - split; [vm_compute; reflexivity|left; reflexivity].
  - vm_compute. split; [discriminate|reflexivity].
  - vm_compute. split; discriminate.
  - vm_compute. discriminate.
  - exists p, st'. split; [exact Hread|].
    rewrite Htake. vm_compute. reflexivity.
Defined.

Lemma romfs_read_past_end_witness :
  romfs_read (run := check_only six_byte_block) 8192 initial_state
  = Ok (drop (Z.land 8192 ROMBUFFERMASK) (read_buffer initial_state))
       (romfs_load (run := check_only six_byte_block) 8192 initial_state)
  /\ read_buffer (romfs_load (run := check_only six_byte_block)
                             8192 initial_state)
     = read_buffer initial_state.
Proof.
  apply (romfs_read_past_end (run := check_only six_byte_block)
                             8192 initial_state).
  vm_compute. discriminate.
Defined.

Lemma walk_moves_counters_outwards_witness :
  exists st' : state,
    expand_fs (hdr := sample_header) (libs := no_libraries)
              (run := check_only one_file_image)
              (snd (find_superblock (hdr := sample_header)
                                    (run := check_only one_file_image)))
              3 [47]
              (polyfs_iget
                 (s_root (snd (find_superblock
                                 (hdr := sample_header)
                                 (run := check_only one_file_image)))))
              initial_state
    = Ok tt st'
    /\ counters_le initial_state st'.
Proof.
  destruct (expand_fs (hdr := sample_header) (libs := no_libraries)
              (run := check_only one_file_image)
              (snd (find_superblock (hdr := sample_header)
                                    (run := check_only one_file_image)))
              3 [47]
              (polyfs_iget
                 (s_root (snd (find_superblock
                                 (hdr := sample_header)
                                 (run := check_only one_file_image)))))
              initial_state)
    as [[] st'| |] eqn:E; try (vm_compute in E; discriminate).
  exists st'. split; [reflexivity|].
  exact (proj1 (walk_moves_counters_outwards
                  (hdr := sample_header) (libs := no_libraries)
                  (run := check_only one_file_image)
                  _ 3 [47] _ initial_state st' E)).
Defined.

Lemma walk_stays_below_path_witness :
  exists st' : state,
    expand_fs (hdr := sample_header) (libs := no_libraries)
              (run := extract_to_out one_file_image)
              (snd (find_superblock (hdr := sample_header)
                                    (run := extract_to_out one_file_image)))
              3 [111; 117; 116]
              (polyfs_iget
                 (s_root (snd (find_superblock
                                 (hdr := sample_header)
                                 (run := extract_to_out one_file_image)))))
              initial_state
    = Ok tt st'
    /\ host_grows (run := extract_to_out one_file_image)
                  [111; 117; 116] initial_state st'.
Proof.
  destruct (expand_fs (hdr := sample_header) (libs := no_libraries)
              (run := extract_to_out one_file_image)
              (snd (find_superblock (hdr := sample_header)
                                    (run := extract_to_out one_file_image)))
              3 [111; 117; 116]
              (polyfs_iget
                 (s_root (snd (find_superblock
                                 (hdr := sample_header)
                                 (run := extract_to_out one_file_image)))))
              initial_state)
    as [[] st'| |] eqn:E; try (vm_compute in E; discriminate).
  exists st'. split; [reflexivity|].
  exact (walk_stays_below_path
           (hdr := sample_header) (libs := no_libraries)
           (run := extract_to_out one_file_image)
           _ 3 [111; 117; 116] _ initial_state st' E).
Defined.

Lemma stored_block_is_exact_witness :
  exists st' : state,
    do_uncompress_loop (hdr := sample_header) (libs := no_libraries)
                       (run := check_only six_byte_block)
                       plain_super 1 [] 0 6 4 initial_state
    = Ok tt st'
    /\ (read_u32 (run := check_only six_byte_block) 0 initial_state = 4
        \/ read_u32 (run := check_only six_byte_block) 0 initial_state
           = 4 + Z.min POLYFS_BLOCK_SIZE 6).
Proof.
  destruct (do_uncompress_loop (hdr := sample_header) (libs := no_libraries)
                               (run := check_only six_byte_block)
                               plain_super 1 [] 0 6 4 initial_state)
    as [[] st'| |] eqn:E; try (vm_compute in E; discriminate).
  exists st'. split; [reflexivity|].
  apply (stored_block_is_exact
           (hdr := sample_header) (libs := no_libraries)
           (run := check_only six_byte_block)
           plain_super 0 [] 0 6 4 initial_state st').
  - vm_compute. reflexivity.
  - vm_compute. reflexivity.
  - vm_compute. split; [discriminate|reflexivity].
  - lia.
  - exact E.
Defined.

Lemma leaf_inode_ends_witness :
  expand_fs (hdr := sample_header) (libs := no_libraries)
            (run := check_only link_block)
            plain_super 4097 [47; 108] link_inode initial_state
  <> Timeout.
Proof.
  apply (leaf_inode_ends
           (hdr := sample_header) (libs := no_libraries)
           (run := check_only link_block)
           plain_super 4097 [47; 108] link_inode initial_state).
  - vm_compute. reflexivity.
  - vm_compute. split; [discriminate|reflexivity].
  - lia.
Defined.

Lemma do_directory_loop_ends_witness :
  do_directory_loop (run := check_only one_record_directory)
                    (fun _ _ => ret tt) 2 [47] 16 4 initial_state
  <> Timeout.
Proof.
  apply (do_directory_loop_ends
           (run := check_only one_record_directory)
           (fun _ _ => ret tt) [47]).
  - intros p j s. discriminate.
  - lia.
  - vm_compute. reflexivity.
Defined.

Lemma test_super_accepts_witness :
  exists super : polyfs_super,
    test_super (hdr := sample_header) (run := check_only padded_image)
               initial_state
    = Ok (512, 4608, super) initial_state
    /\ s_magic super = POLYFS_MAGIC (Header := sample_header)
    /\ POLYFS_BLOCK_SIZE <= s_size super <= 4608.
Proof.
  exists (snd (find_superblock (hdr := sample_header)
                               (run := check_only padded_image))).
  assert (E : test_super (hdr := sample_header)
                         (run := check_only padded_image) initial_state
              = Ok (512, 4608,
                    snd (find_superblock (hdr := sample_header)
                                         (run := check_only padded_image)))
                   initial_state)
    by (vm_compute; reflexivity).
  split; [exact E|].
  destruct (test_super_accepts
              (hdr := sample_header) (run := check_only padded_image)
              initial_state initial_state 512 4608 _ E)
    as (_ & _ & _ & Hmagic & _ & _ & _ & Hsize & _).
  split; [exact Hmagic|exact Hsize].
Defined.

Lemma test_crc_read_loop_agrees_witness :
  test_crc (hdr := sample_header)
           (run := with_mmap (check_only padded_image) false)
           (snd (find_superblock (hdr := sample_header)
                                 (run := check_only padded_image)))
           512 initial_state
  = test_crc (hdr := sample_header)
             (run := with_mmap (check_only padded_image) true)
             (snd (find_superblock (hdr := sample_header)
                                   (run := check_only padded_image)))
             512 initial_state.
Proof.
  apply (test_crc_read_loop_agrees
           (hdr := sample_header) (check_only padded_image)
           initial_state initial_state 512 4608).
  vm_compute. reflexivity.
Defined.

Lemma trailing_bytes_ignored_witness :
  test_super (hdr := sample_header)
             (run := with_image (check_only minimal_image)
                                (minimal_image ++ [1; 2; 3]))
             initial_state
  = Ok (0, 4096 + blen [1; 2; 3], plain_super) initial_state
  /\ test_crc (hdr := sample_header)
              (run := with_image (check_only minimal_image)
                                 (minimal_image ++ [1; 2; 3]))
              plain_super 0 initial_state
     = test_crc (hdr := sample_header) (run := check_only minimal_image)
                plain_super 0 initial_state.
Proof.
  apply (trailing_bytes_ignored
           (hdr := sample_header) (check_only minimal_image) [1; 2; 3]
           initial_state initial_state 0 4096 plain_super).
  vm_compute. reflexivity.
Defined.

Lemma child_name_checked_witness :
  exists st' : state,
    do_directory_loop (run := check_only one_record_directory)
                      (expand_fs (hdr := sample_header)
                                 (libs := no_libraries)
                                 (run := check_only one_record_directory)
                                 plain_super 2)
                      1 [47] 16 4 (set_start_dir 4 initial_state)
    = Ok tt st'
    /\ 1 <= blen (dir_entry_name (run := check_only one_record_directory)
                                 4 (set_start_dir 4 initial_state))
    /\ ~ In 0 (dir_entry_name (run := check_only one_record_directory)
                              4 (set_start_dir 4 initial_state)).
Proof.
  destruct (do_directory_loop (run := check_only one_record_directory)
                      (expand_fs (hdr := sample_header)
                                 (libs := no_libraries)
                                 (run := check_only one_record_directory)
                                 plain_super 2)
                      1 [47] 16 4 (set_start_dir 4 initial_state))
    as [[] st'| |] eqn:E; try (vm_compute in E; discriminate).
  exists st'. split; [reflexivity|].
  destruct (child_name_checked
              (run := check_only one_record_directory)
              _ 0 [47] 16 4 (set_start_dir 4 initial_state) st'
              ltac:(lia) E)
    as (Hlen & _ & _ & Hnul & _).
  split; [exact Hlen|exact Hnul].
Defined.

Lemma data_region_in_order_witness :
  exists st : state,
    polyfsck (hdr := sample_header) (libs := no_libraries)
             (run := check_only one_file_image) 3 = Ok tt st
    /\ end_dir st = start_data st
    /\ start_data st < end_data st
    /\ end_data st <= 4096.
Proof.
  destruct (polyfsck (hdr := sample_header) (libs := no_libraries)
                     (run := check_only one_file_image) 3)
    as [[] st| |] eqn:E; try (vm_compute in E; discriminate).
  exists st. split; [reflexivity|].
  assert (Hdata : start_data st = 92).
  { apply (f_equal (fun r : result unit =>
                      match r with Ok _ s => start_data s | _ => 0 end))
      in E.
    vm_compute in E. symmetry. exact E. }
  destruct (data_region_in_order
              (hdr := sample_header) (libs := no_libraries)
              (run := check_only one_file_image) 3 st)
    as (_ & Hdir & Hlt & Hend & _).
  - vm_compute. reflexivity.
  - vm_compute. reflexivity.
  - exact E.
  - rewrite Hdata. vm_compute. discriminate.
  - split; [exact Hdir|]. split; [exact Hlt|exact Hend].
Defined.

Lemma self_listing_directory_never_returns_witness :
  expand_fs (hdr := sample_header) (libs := no_libraries)
            (run := check_only self_listing_image)
            plain_super 5 [47]
            (polyfs_iget
               (s_root (snd (find_superblock
                               (hdr := sample_header)
                               (run := check_only self_listing_image)))))
            initial_state
  = Timeout.
Proof.
  apply (self_listing_directory_never_returns
           (hdr := sample_header) (libs := no_libraries)
           (run := check_only self_listing_image)
           plain_super 76 (polyfs_iget (drop 76 self_listing_image))).
  - reflexivity.
  - reflexivity.
  - vm_compute. reflexivity.
  - vm_compute. reflexivity.
  - discriminate.
  - vm_compute. discriminate.
  - vm_compute. discriminate.
  - vm_compute. discriminate.
  - vm_compute. discriminate.
  - split; [vm_compute; reflexivity|left; reflexivity].
  - vm_compute. reflexivity.
  - vm_compute. repeat split; discriminate.
  - vm_compute. reflexivity.
  - vm_compute. discriminate.
Defined.

(** The image with the directory that lists itself passes the tests of the
    superblock and of the CRC; its walk is still going after 20 levels. *)
Example self_listing_image_runs_out :
  polyfsck (hdr := sample_header) (libs := no_libraries)
           (run := check_only self_listing_image) 20
  = Timeout.
Proof. vm_compute. reflexivity. Qed.
